(** * joefiorini.com: the MDX component table, the post template and the footer

    A shallow embedding of the JavaScript sources of the blog:
    - the site configuration that the components import as [config/website]
      (unnamed/part_000),
    - the MDX component table and its [pre] handler (unnamed/part_003),
    - the [Post] page template (unnamed/part_002),
    - [src/components/Footer.js] and [src/components/HireMe.js],
    together with a model of the page generator that the specification
    describes (its source is not part of the files at hand).

    JavaScript strings are sequences of UTF-16 code units, JSX expressions are
    trees, a thrown exception is an explicit [Throw] result, and the system
    clock read by the footer is an explicit argument. *)

From Stdlib Require Import ZArith NArith List String Ascii Bool Lia.
From Stdlib Require Import DecimalString DecimalZ.
From stdpp Require Import gmap strings list sorting lexico.
Import ListNotations.

Set Warnings "-register-all".
Local Open Scope N_scope.

(** ** JavaScript values *)

Module JS.

(** A JavaScript string: its UTF-16 code units. *)
Definition js_string := list N.

(** A source literal made of ASCII characters only. *)
Definition u (s : string) : js_string :=
  map N_of_ascii (list_ascii_of_string s).

(** The primitive values that reach the components as props. Numbers are
    restricted to the integers. *)
Inductive js_value :=
| VUndefined
| VNull
| VBool (b : bool)
| VNum (n : Z)
| VStr (s : js_string).

(** [ToBoolean]. *)
Definition truthy (v : js_value) : bool :=
  match v with
  | VUndefined | VNull => false
  | VBool b => b
  | VNum n => negb (n =? 0)%Z
  | VStr s => match s with [] => false | _ :: _ => true end
  end.

(** Decimal rendering of an integer, as [Number.prototype.toString] does. *)
Definition number_to_string (n : Z) : js_string :=
  u (NilZero.string_of_int (Z.to_int n)).

(** [ToString], as applied by a template literal to an interpolated value. *)
Definition to_string (v : js_value) : js_string :=
  match v with
  | VUndefined => u "undefined"
  | VNull => u "null"
  | VBool true => u "true"
  | VBool false => u "false"
  | VNum n => number_to_string n
  | VStr s => s
  end.

(** A nullable string field of a GraphQL result as a value. *)
Definition of_nullable (o : option js_string) : js_value :=
  match o with
  | Some s => VStr s
  | None => VNull
  end.

(** Exceptions. The only one the modelled code can raise is the [TypeError]
    of a property read on [undefined] or [null]. *)
Inductive js_error := TypeError.

Inductive result (A : Type) :=
| Ok (a : A)
| Throw (e : js_error).
Arguments Ok {A} a.
Arguments Throw {A} e.

Definition bind {A B} (r : result A) (k : A -> result B) : result B :=
  match r with
  | Ok a => k a
  | Throw e => Throw e
  end.

(** Reading a property of a value that may be [null] or [undefined]. *)
Definition member {A B} (o : option A) (field : A -> B) : result B :=
  match o with
  | Some a => Ok (field a)
  | None => Throw TypeError
  end.

End JS.
Import JS.

Notation "'let*' x ':=' e 'in' k" := (JS.bind e (fun x => k))
  (at level 10, x name, e at level 100, k at level 200).

(** ** The legacy-export rewrite of the [pre] handler

    [codeString.replace(/(\n+)_export(\s)/g, '$1export$2')]. *)

Module ExportFix.

Definition LF : N := 10.

(** The class [\s]: WhiteSpace and LineTerminator code units. *)
Definition is_white_space (c : N) : bool :=
  existsb (N.eqb c)
    [9; 10; 11; 12; 13; 32; 160; 5760; 8232; 8233; 8239; 8287; 12288; 65279]
  || ((8192 <=? c) && (c <=? 8202)).

(** The longest run of line feeds at the head of [s], and what follows it:
    the greedy first attempt of [\n+]. *)
Fixpoint span_lf (s : js_string) : nat * js_string :=
  match s with
  | c :: s' =>
      if c =? LF then let '(k, rest) := span_lf s' in (S k, rest) else (O, s)
  | [] => (O, [])
  end.

Fixpoint strip_prefix (p s : js_string) : option js_string :=
  match p, s with
  | [], _ => Some s
  | a :: p', b :: s' => if a =? b then strip_prefix p' s' else None
  | _ :: _, [] => None
  end.

(** What follows group 1: the literal [_export], then group 2, one [\s]. *)
Definition match_tail (s : js_string) : option (N * js_string) :=
  match strip_prefix (u "_export") s with
  | Some (w :: rest) => if is_white_space w then Some (w, rest) else None
  | _ => None
  end.

(** Backtracking of [\n+]: with [k] line feeds taken and [rest] following,
    try the tail; on failure give one line feed back, as long as one is
    left in the group. *)
Fixpoint backtrack (k : nat) (rest : js_string) : option (nat * N * js_string) :=
  match k with
  | O => None
  | S k' =>
      match match_tail rest with
      | Some (w, r) => Some (k, w, r)
      | None => backtrack k' (LF :: rest)
      end
  end.

(** One attempt of the pattern at the head of [s]: the captures
    (group 1, group 2) and the input after the match. *)
Definition match_here (s : js_string) : option (js_string * N * js_string) :=
  let '(k, rest) := span_lf s in
  match backtrack k rest with
  | Some (j, w, r) => Some (repeat LF j, w, r)
  | None => None
  end.

(** The global replace: scan from the left; at a match emit
    [$1 export $2] and resume after it, otherwise copy one code unit and
    try at the next index. The fuel bounds the number of scan steps. *)
Fixpoint replace_from (fuel : nat) (s : js_string) : js_string :=
  match fuel with
  | O => s
  | S fuel' =>
      match s with
      | [] => []
      | c :: s' =>
          match match_here s with
          | Some (g1, g2, rest) =>
              g1 ++ u "export" ++ g2 :: replace_from fuel' rest
          | None => c :: replace_from fuel' s'
          end
      end
  end.

Definition fix_export (s : js_string) : js_string :=
  replace_from (length s) s.

(** Does [s] hold [pat] followed by a white space? *)
Fixpoint occurs_ws (pat s : js_string) : bool :=
  match s with
  | [] => false
  | _ :: s' =>
      match strip_prefix pat s with
      | Some (w :: _) => is_white_space w
      | _ => false
      end
      || occurs_ws pat s'
  end.

(** The legacy pattern occurs: a line feed, [_export], a white space. *)
Definition legacy_occurs (s : js_string) : bool :=
  occurs_ws (LF :: u "_export") s.

(** Two occurrences of the legacy pattern share a line feed: a line feed,
    [_export], a line feed, [_export], a white space. *)
Definition overlap_occurs (s : js_string) : bool :=
  occurs_ws (LF :: u "_export" ++ LF :: u "_export") s.

End ExportFix.
Import ExportFix.

(** ** Query results and site configuration *)

Module Data.

(** The object exported by [config/website]. *)
Record Config := {
  pathPrefix : js_string;
  siteTitle : js_string;
  siteTitleAlt : js_string;
  siteTitleShort : js_string;
  siteUrl : js_string;
  siteLanguage : js_string;
  siteLogo : js_string;
  siteDescription : js_string;
  author : js_string;
  organization : js_string;
  userTwitter : js_string;
  ogSiteName : js_string;
  ogLanguage : js_string;
  googleAnalyticsID : js_string;
  themeColor : js_string;
  backgroundColor : js_string;
  twitter : js_string;
  twitterHandle : js_string;
  github : js_string;
  linkedin : js_string
}.

Definition website : Config := {|
  pathPrefix := u "/";
  siteTitle := u "Joe Fiorini";
  siteTitleAlt :=
    u "Blog about taming complex React apps and complexity in apps built with React.js, TypeScript & using React Hooks";
  siteTitleShort := u "Joe Fiorini";
  siteUrl := u "https://joefiorini.com";
  siteLanguage := u "en";
  siteLogo := u "images/logo.png";
  siteDescription :=
    u "Tame complexity in your React app; simple posts with detailed examples describing how complexity creeps into React projects and how to solve it.";
  author := u "Joe Fiorini";
  organization := u "";
  userTwitter := u "@joegrammer2";
  ogSiteName := u "Joe Fiorini";
  ogLanguage := u "en_US";
  googleAnalyticsID := u "UA-58406625-2";
  themeColor := u "#0584c7";
  backgroundColor := u "#EEF4F2";
  twitter := u "https://twitter.com/joegrammer2/";
  twitterHandle := u "@joegrammer2";
  github := u "https://github.com/joefiorini/";
  linkedin := u "https://linkedin.com/in/joefiorini"
|}.

(** The result of [pageQuery]. Every selected field is nullable. The
    fields of the fluid image fragment are fixed by the image plugin; the
    template only passes the object on. *)
Inductive Fluid := FluidImage (src : js_string).

Record ImageSharp := { fluid : option Fluid }.

Record File := { childImageSharp : option ImageSharp }.

Record Frontmatter := {
  title : option js_string;
  video_url : option js_string;
  video_teaser : option js_string;
  date : option js_string;
  banner : option File;
  slug : option js_string;
  keywords : option (list js_string)
}.

Record Code := { body : js_string }.

Record Mdx := { frontmatter : Frontmatter; code : Code }.

(** Of the [site] fragment the template reads [siteMetadata.keywords]. *)
Record SiteMetadata := { site_keywords : option (list js_string) }.

Record Site := { siteMetadata : SiteMetadata }.

(** [pageContext]: the neighbours handed over by the page generator. *)
Record PageContext := { next : option Frontmatter; prev : option Frontmatter }.

(** Values imported from [lib/breakpoints] and [lib/typography], which are
    interpolated into the style sheets. *)
Record Lib := { bpMaxSM : string; fonts_regular : string }.

End Data.
Import Data.

(** ** JSX trees *)

Module Jsx.

Inductive attr :=
| AVal (v : js_value)
| ACss (css : list string)
| AFluid (f : option Fluid)
| AFrontmatter (f : Frontmatter)
| ASite (s : Site).

(** A JSX expression: an element with its attributes and children, or a
    primitive value in child position. *)
Inductive jsx :=
| JVal (v : js_value)
| JElem (tag : string) (attrs : list (string * attr)) (children : list jsx).

Definition JText (s : string) : jsx := JVal (VStr (u s)).

(** [v && e] in child position. *)
Definition and_then (v : js_value) (e : jsx) : jsx :=
  if truthy v then e else JVal v.

(** [a && b] on values. *)
Definition js_and (a b : js_value) : js_value :=
  if truthy a then b else a.

(** [v ? e : null]. *)
Definition or_null (v : js_value) (e : jsx) : jsx :=
  if truthy v then e else JVal VNull.

(** [Array.prototype.join] on an array of strings. *)
Fixpoint join (sep : js_string) (l : list js_string) : js_string :=
  match l with
  | [] => []
  | [a] => a
  | a :: l' => a ++ sep ++ join sep l'
  end.

(** Does an element with the given tag occur in the tree? *)
Fixpoint has_tag (t : string) (j : jsx) : bool :=
  match j with
  | JVal _ => false
  | JElem tag _ cs => String.eqb tag t || existsb (has_tag t) cs
  end.

(** The first element with the given tag, in document order. *)
Fixpoint find_tag (t : string) (j : jsx) : option jsx :=
  match j with
  | JVal _ => None
  | JElem tag _ cs =>
      if String.eqb tag t then Some j
      else
        (fix go (l : list jsx) : option jsx :=
           match l with
           | [] => None
           | c :: l' =>
               match find_tag t c with
               | Some e => Some e
               | None => go l'
               end
           end) cs
  end.

(** React mounts nothing for [null], [undefined] and booleans in child
    position: the tree that is left once they are dropped. *)
Definition renders_nothing (j : jsx) : bool :=
  match j with
  | JVal VUndefined | JVal VNull | JVal (VBool _) => true
  | _ => false
  end.

Fixpoint mounted (j : jsx) : jsx :=
  match j with
  | JVal v => JVal v
  | JElem tag attrs cs =>
      JElem tag attrs
        ((fix go (l : list jsx) : list jsx :=
            match l with
            | [] => []
            | c :: l' =>
                if renders_nothing c then go l' else mounted c :: go l'
            end) cs)
  end.

Definition children_of (j : jsx) : list jsx :=
  match j with
  | JVal _ => []
  | JElem _ _ cs => cs
  end.

Definition attr_of (name : string) (j : jsx) : option attr :=
  match j with
  | JVal _ => None
  | JElem _ attrs _ => snd <$> List.find (fun p => String.eqb (fst p) name) attrs
  end.

End Jsx.
Import Jsx.

(** ** The MDX component table *)

Module Mdx.

(** The props object of an element: its attributes and its children. *)
Record element_props := {
  props_attrs : list (string * attr);
  props_children : list jsx
}.

(** The object [preToCodeBlock] returns for a [pre] that wraps a code
    element: the code string, and the remaining props (the language among
    them) that are spread onto [Code]. *)
Record code_block := {
  codeString : js_string;
  code_rest : list (string * attr)
}.

Definition handler := element_props -> result jsx.

Section Components.

(** [preToCodeBlock] is imported from the package mdx-utils. It returns
    [undefined], here [None], when the [pre] does not wrap a code element. *)
Variable preToCodeBlock : element_props -> option code_block.

Definition h1 : handler :=
  fun props => Ok (JElem "Title" (props_attrs props) (props_children props)).

Definition h2 : handler :=
  fun props => Ok (JElem "Subtitle" (props_attrs props) (props_children props)).

Definition p : handler :=
  fun props => Ok (JElem "Paragraph" (props_attrs props) (props_children props)).

(** The statements of [pre] in order: the call of [preToCodeBlock]; the
    assignment to [props.codeString], whose right-hand side reads
    [props.codeString] and so throws when [props] is [undefined]; the test
    [if (props)] with its two branches. *)
Definition pre : handler :=
  fun preProps =>
    let props := preToCodeBlock preProps in
    let* raw := member props codeString in
    let props :=
      option_map
        (fun b => {| codeString := fix_export raw; code_rest := code_rest b |})
        props in
    match props with
    | Some b =>
        Ok (JElem "Code"
              (("codeString", AVal (VStr (codeString b))) :: code_rest b) [])
    | None =>
        Ok (JElem "pre" (props_attrs preProps) (props_children preProps))
    end.

(** The exported object. *)
Definition components : gmap string handler :=
  {[ "h1" := h1; "h2" := h2; "p" := p; "pre" := pre ]}.

End Components.

(** A minimal instance of the imported helper, for concrete evaluations:
    it recognises a [pre] whose only child is a [code] element that holds
    one string, and hands the attributes of that element on. *)
Definition preToCodeBlock_simple (preProps : element_props) : option code_block :=
  match props_children preProps with
  | [JElem tag attrs [JVal (VStr s)]] =>
      if String.eqb tag "code"
      then Some {| codeString := s; code_rest := attrs |}
      else None
  | _ => None
  end.

End Mdx.

(** ** The post template *)

Module Template.

Definition br : jsx := JElem "br" [] [].

(** The element [Post] returns. Its call of [console.log] writes the
    frontmatter to the console and has no part in the result; [next] and
    [prev] are taken from [pageContext] and not used. The one expression
    that can throw is the banner block, which reads
    [banner.childImageSharp.fluid] and [site.siteMetadata.keywords.join]. *)
Definition Post (lib : Lib) (config : Config)
    (site : Site) (mdx : Mdx) (pageContext : PageContext) : result jsx :=
  let date := date (frontmatter mdx) in
  let title := title (frontmatter mdx) in
  let banner := banner (frontmatter mdx) in
  let videoUrl := video_url (frontmatter mdx) in
  let videoTeaser := video_teaser (frontmatter mdx) in
  let* banner_section :=
    match banner with
    | Some file =>
        let* sizes := member (childImageSharp file) fluid in
        let* alt := member (site_keywords (siteMetadata site)) (join (u ", ")) in
        Ok (JElem "div"
              [("css", ACss ["padding: 30px;";
                             bpMaxSM lib +:+ " {";
                             "padding: 0;";
                             "}"])]
              [JElem "Img"
                 [("sizes", AFluid sizes); ("alt", AVal (VStr alt))] []])
    | None => Ok (JVal VNull)
    end in
  Ok (JElem "Layout"
        [("site", ASite site); ("frontmatter", AFrontmatter (frontmatter mdx))]
        [JElem "SEO"
           [("frontmatter", AFrontmatter (frontmatter mdx));
            ("isBlogPost", AVal (VBool true))] [];
         JElem "article"
           [("css", ACss ["width: 100%;"; "display: flex;"])]
           [JElem "Container" []
              [JElem "h1"
                 [("css", ACss ["text-align: center;"; "margin-bottom: 20px;"])]
                 [JVal (of_nullable title)];
               JElem "div"
                 [("css", ACss ["display: flex;";
                                "justify-content: center;";
                                "margin-bottom: 20px;";
                                "h3,";
                                "span {";
                                "text-align: center;";
                                "font-size: 15px;";
                                "opacity: 0.6;";
                                "font-family: " +:+ fonts_regular lib +:+ ", sans-serif;";
                                "font-weight: normal;";
                                "margin: 0 5px;";
                                "}"])]
                 [and_then (of_nullable date)
                    (JElem "h3" [] [JVal (of_nullable date)])];
               banner_section;
               br;
               or_null (of_nullable videoUrl)
                 (JElem "Aside" []
                    [JElem "h3"
                       [("css", ACss ["display: flex;"; "align-items: center;"])]
                       [JElem "div"
                          [("css", ACss ["line-height: 0;";
                                         "display: inline-block;";
                                         "margin-right: 8px;"])]
                          [JElem "YouTube"
                             [("url", AVal (of_nullable videoUrl))] []];
                        JText " ";
                        JText "This post has a companion video"];
                     or_null (of_nullable videoTeaser)
                       (JElem "p" [] [JVal (of_nullable videoTeaser)]);
                     JElem "p"
                       [("css", ACss ["margin-bottom: 0;"])]
                       [JElem "OutboundLink"
                          [("href", AVal (of_nullable videoUrl))]
                          [JText "Watch the video"]]]);
               JElem "MDXRenderer" [] [JVal (VStr (body (code mdx)))]]];
         JElem "Container"
           [("noVerticalPadding", AVal (VBool true))]
           [JElem "Share"
              [("url",
                AVal (VStr (siteUrl config ++ u "/"
                            ++ to_string (of_nullable (slug (frontmatter mdx)))
                            ++ u "/")));
               ("title", AVal (of_nullable title));
               ("twitterHandle", AVal (VStr (twitterHandle config)))] [];
            br]]).

End Template.

(** ** The footer: [src/components/Footer.js], [src/components/HireMe.js] *)

Module Components.

Definition HireMe (config : Config) : jsx :=
  JElem "div" []
    [JElem "h2" [] [JText "Did you find this advice helpful?"];
     JElem "h3" []
       [JText "Hire me to help you tame the complexity of your React apps"];
     JElem "p" []
       [JText "I've worked in with teams and codebases of all sizes at all stages of a project.";
        JText " ";
        JElem "OutboundLink"
          [("href", AVal (VStr (u "https://calendly.com/joe-fiorini")))]
          [JText "Let's set up a time to chat about your project"];
        JText " ";
        JText "and see if there's anywhere I can help out!"];
     JElem "h3" [] [JText "I'd like to hear your thoughts"];
     JElem "p" []
       [JText "Find me on ";
        JElem "a" [("href", AVal (VStr (twitter config)))] [JText "Twitter"];
        JText " and let's talk."]].

(** The text of the copyright line: the author, a space, the copyright
    sign U+00A9, a space, the year. *)
Definition copyright (author : js_value) (year : Z) : js_string :=
  to_string author ++ [32; 169; 32] ++ number_to_string year.

(** [Footer] reads the system clock with [new Date().getFullYear()]; the
    year it obtains is the argument [year]. *)
Definition Footer (lib : Lib) (year : Z)
    (author noSubscribeForm isPost : js_value) : jsx :=
  JElem "footer" []
    [JElem "Container"
       [("css", ACss ["padding-top: 0;";
                      bpMaxSM lib +:+ " {";
                      "padding-top: 0;";
                      "}"])]
       [and_then (VBool (negb (truthy noSubscribeForm)))
          (JElem "div" []
             [and_then isPost (JElem "HireMe" [] []);
              JElem "SubscribeForm" [] [];
              JElem "br" [] [];
              JElem "br" [] []]);
        JElem "div"
          [("css", ACss ["display: flex;";
                         "align-items: center;";
                         "justify-content: space-between;"])]
          [JElem "div"
             [("css", ACss ["font-size: 90%;"; "opacity: 0.7;"])]
             [JVal (js_and author (VStr (copyright author year)))];
           JElem "div" []
             [JElem "Twitter" [] [];
              JElem "GitHub" [] [];
              JElem "LinkedIn" [] [];
              JElem "YouTube" [] []]]]].

End Components.

(** ** The page generator *)

Module Generator.

(** Modelled from the spec: the calendar date of a [ContentRecord]. The
    loader that parses it from the header block is not among the sources. *)
Record CalendarDate := { year : N; month : N; day : N }.

(** Modelled from the spec: the [ContentRecord] of the data model, one per
    source file, with the fields the specification lists. *)
Record ContentRecord := {
  slug : js_string;
  date : CalendarDate;
  title : js_string;
  description : js_string;
  published : bool;
  banner : option js_string;
  video_url : option js_string;
  video_teaser : option js_string;
  body : js_string
}.

Definition date_key (d : CalendarDate) : N * N * N :=
  (year d, month d, day d).

(** Strictly earlier calendar date. *)
Definition date_lt (d1 d2 : CalendarDate) : Prop :=
  lexico (date_key d1) (date_key d2).

(** Modelled from the spec: the chronological order of records, by
    publication date, ties broken by slug. *)
Definition sort_key (r : ContentRecord) : N * N * N * js_string :=
  (date_key (date r), slug r).

Definition before (r1 r2 : ContentRecord) : Prop :=
  lexico (sort_key r1) (sort_key r2).

Definition not_after (r1 r2 : ContentRecord) : Prop := ¬ before r2 r1.

#[global] Instance not_after_dec : RelDecision not_after.
Proof. intros r1 r2. unfold not_after, before. apply _. Defined.

(** Modelled from the spec: one generated page, the record with its
    previous and next neighbour. *)
Record Page := {
  record : ContentRecord;
  previous : option ContentRecord;
  next : option ContentRecord
}.

Inductive GenerationError :=
| DuplicateSlugError (a b : ContentRecord).

(** Modelled from the spec: two published records with the same slug abort
    the run; the error names both. *)
Fixpoint find_duplicate (rs : list ContentRecord)
    : option (ContentRecord * ContentRecord) :=
  match rs with
  | [] => None
  | r :: rs' =>
      match List.find (fun r' => bool_decide (slug r = slug r')) rs' with
      | Some r' => Some (r, r')
      | None => find_duplicate rs'
      end
  end.

(** Modelled from the spec: the neighbours of each record of a list in
    ascending order: the record just before it and the record just after. *)
Fixpoint link (prev : option ContentRecord) (l : list ContentRecord) : list Page :=
  match l with
  | [] => []
  | r :: l' =>
      {| record := r; previous := prev; next := head l' |} :: link (Some r) l'
  end.

(** Modelled from the spec: the published records in ascending
    chronological order. *)
Definition chronological (rs : list ContentRecord) : list ContentRecord :=
  merge_sort not_after (List.filter published rs).

(** Modelled from the spec: the generation run of section 4.4. Unpublished
    records are dropped, a duplicate slug aborts, neighbours are taken in
    ascending date order, and the pages come out most recent first. *)
Definition generate (rs : list ContentRecord) : GenerationError + list Page :=
  match find_duplicate (List.filter published rs) with
  | Some (a, b) => inl (DuplicateSlugError a b)
  | None => inr (reverse (link None (chronological rs)))
  end.

(** [b] is the published record with the smallest date strictly greater
    than that of [a]. *)
Definition successor (rs : list ContentRecord) (a b : ContentRecord) : Prop :=
  b ∈ List.filter published rs ∧ date_lt (date a) (date b) ∧
  ∀ c, c ∈ List.filter published rs → date_lt (date a) (date c) →
       ¬ date_lt (date c) (date b).

(** [b] is the published record with the greatest date strictly smaller
    than that of [a]. *)
Definition predecessor (rs : list ContentRecord) (a b : ContentRecord) : Prop :=
  b ∈ List.filter published rs ∧ date_lt (date b) (date a) ∧
  ∀ c, c ∈ List.filter published rs → date_lt (date c) (date a) →
       ¬ date_lt (date b) (date c).

Definition earliest (rs : list ContentRecord) (a : ContentRecord) : Prop :=
  ∀ c, c ∈ List.filter published rs → ¬ date_lt (date c) (date a).

Definition latest (rs : list ContentRecord) (a : ContentRecord) : Prop :=
  ∀ c, c ∈ List.filter published rs → ¬ date_lt (date a) (date c).

End Generator.

(** * Vocabulary of the statements *)

(** ** Strings *)

Definition export_ : js_string := u "_export".

(** The string on which a second pass of the rewrite still finds work. *)
Definition overlapping_exports : js_string :=
  [LF] ++ u "_export" ++ [LF] ++ u "_export" ++ [32].

(** A module source with two legacy exports, each after a blank line. *)
Definition legacy_source : js_string :=
  u "import a" ++ [LF; LF] ++ u "_export default f" ++ [LF; LF] ++ u "_export x".

(** The code units of [s] other than the underscore, in order. *)
Definition without_underscores (s : js_string) : js_string :=
  List.filter (fun c => negb (c =? 95)) s.

(** The check of [overlap_occurs] at one position. *)
Definition overlap_here (s : js_string) : bool :=
  match strip_prefix (LF :: u "_export" ++ LF :: u "_export") s with
  | Some (w :: _) => is_white_space w
  | _ => false
  end.

(** A first line followed by a legacy export. *)
Definition first_line_source : js_string :=
  u "_export default f" ++ [LF; LF] ++ u "_export x".

(** ** Trees *)

Definition tag_of (j : jsx) : string :=
  match j with
  | JVal _ => ""
  | JElem tag _ _ => tag
  end.

(** The link paragraph that closes the video callout. *)
Definition watch_link (url : js_value) : jsx :=
  JElem "p"
    [("css", ACss ["margin-bottom: 0;"])]
    [JElem "OutboundLink" [("href", AVal url)] [JText "Watch the video"]].

(** The share widget of a record. *)
Definition share_widget (config : Config) (slug : js_string) (title : js_value) : jsx :=
  JElem "Share"
    [("url", AVal (VStr (siteUrl config ++ u "/" ++ slug ++ u "/")));
     ("title", AVal title);
     ("twitterHandle", AVal (VStr (twitterHandle config)))] [].

(** The [n]-th child of an element. *)
Definition child (n : nat) (j : jsx) : option jsx := children_of j !! n.

(** The first slot of the footer's container: the subscribe section. *)
Definition subscribe_slot (footer : jsx) : option jsx :=
  c ← child 0 footer; child 0 c.

(** The block that holds the copyright line: the first block of the last
    block of the footer's container. *)
Definition copyright_block (footer : jsx) : option jsx :=
  c ← child 0 footer; d ← last (children_of c); child 0 d.

(** ** Records *)

(** Ascending publication date. *)
Definition by_date (a b : Generator.ContentRecord) : Prop :=
  Generator.date_lt (Generator.date a) (Generator.date b).

(** ** Sample inputs *)

(** A [pre] that holds plain text and no code element. *)
Definition bare_pre : Mdx.element_props :=
  {| Mdx.props_attrs := []; Mdx.props_children := [JText "plain text"] |}.

(** A [pre] that wraps a code fence. *)
Definition fenced_pre : Mdx.element_props :=
  {| Mdx.props_attrs := [];
     Mdx.props_children :=
       [JElem "code"
          [("className", AVal (VStr (u "language-js")))]
          [JVal (VStr (u "import a" ++ [LF; LF] ++ u "_export default a"))]] |}.

(** Values for the imports from [lib/breakpoints] and [lib/typography]. *)
Definition example_lib : Lib :=
  {| bpMaxSM := "@media (max-width: 767px)"; fonts_regular := "sans" |}.

Definition example_site : Site :=
  {| siteMetadata := {| site_keywords := Some [u "react"; u "typescript"] |} |}.

Definition example_context : PageContext := {| next := None; prev := None |}.

(** The post [content/blog/demo01] as the page query delivers it, with and
    without its optional fields. *)
Definition demo01 (banner : option File) (video_url video_teaser : option js_string)
    : Mdx :=
  {| frontmatter :=
       {| title := Some (u "Taming Complex State with Union Types");
          video_url := video_url;
          video_teaser := video_teaser;
          date := Some (u "January 01, 2017");
          banner := banner;
          slug := Some (u "demo-01");
          keywords := None |};
     code := {| body := u "function MDXContent() {}" |} |}.

(** An image file with its fluid data, and one without image data. *)
Definition example_banner : File :=
  {| childImageSharp :=
       Some {| fluid := Some (FluidImage (u "/static/banner.png")) |} |}.


(** [demo01] as delivered for a header block without date and slug. *)
Definition demo01_bare : Mdx :=
  {| frontmatter :=
       {| title := Some (u "Taming Complex State with Union Types");
          video_url := None;
          video_teaser := None;
          date := None;
          banner := None;
          slug := None;
          keywords := None |};
     code := {| body := u "function MDXContent() {}" |} |}.

Definition example_video_url : js_string := u "https://youtu.be/abc".

Definition example_teaser : js_string := u "Watch me refactor it live".

Definition date_2017_01_01 : Generator.CalendarDate :=
  {| Generator.year := 2017; Generator.month := 1; Generator.day := 1 |}.

Definition date_2017_02_01 : Generator.CalendarDate :=
  {| Generator.year := 2017; Generator.month := 2; Generator.day := 1 |}.

Definition example_record (slug : string) (date : Generator.CalendarDate)
    (published : bool) : Generator.ContentRecord :=
  {| Generator.slug := u slug;
     Generator.date := date;
     Generator.title := u slug;
     Generator.description := [];
     Generator.published := published;
     Generator.banner := None;
     Generator.video_url := None;
     Generator.video_teaser := None;
     Generator.body := [] |}.

Definition record_A : Generator.ContentRecord :=
  example_record "a" date_2017_01_01 true.

Definition record_B : Generator.ContentRecord :=
  example_record "b" date_2017_02_01 true.

Definition record_draft : Generator.ContentRecord :=
  example_record "draft" date_2017_02_01 false.

(** * Properties *)

(** ** The scanner of the export rewrite *)

Section ExportFixFacts.

Local Open Scope nat_scope.

Lemma strip_prefix_spec (p s r : js_string) :
  strip_prefix p s = Some r ↔ s = p ++ r.
Proof.
  revert s. induction p as [|a p IH]; intros s; simpl.
  - split; [intros [= ->]; reflexivity | intros ->; reflexivity].
  - destruct s as [|b s]; [split; discriminate|].
    destruct (N.eqb_spec a b) as [->|Hne].
    + rewrite IH. split; [intros ->; reflexivity | intros [= ->]; reflexivity].
    + split; [discriminate | intros [= E _]; congruence].
Qed.

Lemma match_tail_spec (s : js_string) (w : N) (r : js_string) :
  match_tail s = Some (w, r) ↔ s = export_ ++ w :: r ∧ is_white_space w = true.
Proof.
  unfold match_tail.
  destruct (strip_prefix (u "_export") s) as [t|] eqn:E.
  - apply strip_prefix_spec in E. subst s. fold export_.
    destruct t as [|w' t].
    + split; [discriminate|]. intros [E _]. apply app_inv_head in E. discriminate.
    + destruct (is_white_space w') eqn:Hw.
      * split.
        -- intros [= -> ->]. auto.
        -- intros [E _]. apply app_inv_head in E.
           injection E as -> ->. reflexivity.
      * split; [discriminate|].
        intros [E Hw']. apply app_inv_head in E.
        injection E as -> ->. congruence.
  - split; [discriminate|]. intros [-> _].
    assert (H : strip_prefix (u "_export") (export_ ++ w :: r) = Some (w :: r))
      by (apply strip_prefix_spec; reflexivity).
    congruence.
Qed.

Lemma match_tail_lf (t : js_string) : match_tail (LF :: t) = None.
Proof. reflexivity. Qed.

Lemma match_tail_head (s : js_string) :
  match_tail s ≠ None → head s = Some 95%N.
Proof.
  destruct (match_tail s) as [[w r]|] eqn:E; [|congruence].
  intros _. apply match_tail_spec in E as [-> _]. reflexivity.
Qed.

Lemma backtrack_eq (k : nat) (rest : js_string) :
  backtrack k rest =
    match k with
    | O => None
    | S _ =>
        match match_tail rest with
        | Some (w, r) => Some (k, w, r)
        | None => None
        end
    end.
Proof.
  revert rest. induction k as [|k IH]; intros rest; [reflexivity|].
  simpl. destruct (match_tail rest) as [[w r]|]; [reflexivity|].
  rewrite IH, match_tail_lf. destruct k; reflexivity.
Qed.

Lemma span_lf_spec (s : js_string) (k : nat) (rest : js_string) :
  span_lf s = (k, rest) → s = repeat LF k ++ rest ∧ head rest ≠ Some LF.
Proof.
  revert k rest. induction s as [|c s IH]; intros k rest; simpl.
  - intros [= <- <-]. split; [reflexivity | discriminate].
  - destruct (N.eqb_spec c LF) as [->|Hne].
    + destruct (span_lf s) as [k' rest'] eqn:E. intros [= <- <-].
      destruct (IH _ _ eq_refl) as [-> Hh]. split; [reflexivity | exact Hh].
    + intros [= <- <-]. split; [reflexivity|]. simpl. congruence.
Qed.

Lemma span_lf_run (n : nat) (t : js_string) :
  head t ≠ Some LF → span_lf (repeat LF n ++ t) = (n, t).
Proof.
  intros Ht. induction n as [|n IH]; simpl.
  - destruct t as [|c t]; [reflexivity|]. simpl.
    destruct (N.eqb_spec c LF) as [->|]; [contradiction Ht|]; reflexivity.
  - rewrite IH. reflexivity.
Qed.

(** The attempt at the head of [s] in closed form: the whole run of line
    feeds is group 1, and backtracking never finds another match. *)
Lemma match_here_eq (s : js_string) :
  match_here s =
    match span_lf s with
    | (S k, rest) =>
        match match_tail rest with
        | Some (w, r) => Some (repeat LF (S k), w, r)
        | None => None
        end
    | (O, _) => None
    end.
Proof.
  unfold match_here. destruct (span_lf s) as [k rest].
  rewrite backtrack_eq. destruct k; [reflexivity|].
  destruct (match_tail rest) as [[w r]|]; reflexivity.
Qed.

Lemma match_here_spec (s g1 : js_string) (w : N) (r : js_string) :
  match_here s = Some (g1, w, r) ↔
  ∃ k, g1 = repeat LF (S k) ∧ s = g1 ++ export_ ++ w :: r ∧
       is_white_space w = true.
Proof.
  rewrite match_here_eq. split.
  - destruct (span_lf s) as [[|k] rest] eqn:E; [discriminate|].
    destruct (match_tail rest) as [[w' r']|] eqn:Et; [|discriminate].
    intros [= <- <- <-]. apply span_lf_spec in E as [-> _].
    apply match_tail_spec in Et as [-> Hw]. eauto.
  - intros (k & -> & -> & Hw).
    rewrite span_lf_run by discriminate.
    assert (Et : match_tail (export_ ++ w :: r) = Some (w, r))
      by (apply match_tail_spec; auto).
    rewrite Et. reflexivity.
Qed.

Lemma match_here_not_lf (c : N) (t : js_string) :
  c ≠ LF → match_here (c :: t) = None.
Proof.
  intros Hc. rewrite match_here_eq. simpl.
  destruct (N.eqb_spec c LF); [contradiction|reflexivity].
Qed.

Lemma match_here_length (s g1 : js_string) (w : N) (r : js_string) :
  match_here s = Some (g1, w, r) → length r < length s.
Proof.
  intros (k & -> & -> & _)%match_here_spec.
  rewrite !length_app. simpl. lia.
Qed.

(** Fuel beyond the length of the input changes nothing. *)
Lemma replace_from_fuel (n m : nat) (s : js_string) :
  length s ≤ n → length s ≤ m → replace_from n s = replace_from m s.
Proof.
  revert m s. induction n as [|n IH]; intros m s Hn Hm.
  - destruct s; [|simpl in Hn; lia]. destruct m; reflexivity.
  - destruct m as [|m]; [destruct s; [reflexivity | simpl in Hm; lia]|].
    simpl. destruct s as [|c s]; [reflexivity|].
    destruct (match_here (c :: s)) as [[[g1 w] r]|] eqn:E.
    + apply match_here_length in E. simpl in *.
      rewrite (IH m r) by lia. reflexivity.
    + simpl in *. rewrite (IH m s) by lia. reflexivity.
Qed.

(** The scan as a recursion equation. *)
Lemma fix_export_nil : fix_export [] = [].
Proof. reflexivity. Qed.

Lemma fix_export_cons (c : N) (s : js_string) :
  fix_export (c :: s) =
    match match_here (c :: s) with
    | Some (g1, g2, rest) => g1 ++ u "export" ++ g2 :: fix_export rest
    | None => c :: fix_export s
    end.
Proof.
  unfold fix_export. simpl length. cbn [replace_from].
  destruct (match_here (c :: s)) as [[[g1 w] r]|] eqn:E; [|reflexivity].
  apply match_here_length in E. simpl in E.
  rewrite (replace_from_fuel (length s) (length r) r) by lia. reflexivity.
Qed.

Lemma fix_export_not_lf (c : N) (s : js_string) :
  c ≠ LF → fix_export (c :: s) = c :: fix_export s.
Proof.
  intros Hc. rewrite fix_export_cons, match_here_not_lf by exact Hc. reflexivity.
Qed.

Lemma fix_export_match (k : nat) (w : N) (r : js_string) :
  is_white_space w = true →
  fix_export (repeat LF (S k) ++ export_ ++ w :: r) =
    repeat LF (S k) ++ u "export" ++ w :: fix_export r.
Proof.
  intros Hw.
  assert (E : match_here (repeat LF (S k) ++ export_ ++ w :: r) =
              Some (repeat LF (S k), w, r))
    by (apply match_here_spec; eauto).
  change (repeat LF (S k) ++ export_ ++ w :: r)
    with (LF :: (repeat LF k ++ export_ ++ w :: r)) in *.
  rewrite fix_export_cons, E. reflexivity.
Qed.

(** The rewrite keeps the first code unit of its input. *)
Lemma fix_export_head (s : js_string) : head (fix_export s) = head s.
Proof.
  destruct s as [|c s]; [reflexivity|].
  rewrite fix_export_cons.
  destruct (match_here (c :: s)) as [[[g1 w] r]|] eqn:E; [|reflexivity].
  apply match_here_spec in E as (k & -> & E & _). rewrite E. reflexivity.
Qed.

(** Two line feeds in a row: the first is copied, whatever follows. *)
Lemma fix_export_lf_lf (t : js_string) :
  fix_export (LF :: LF :: t) = LF :: fix_export (LF :: t).
Proof.
  rewrite (fix_export_cons LF (LF :: t)), (fix_export_cons LF t).
  rewrite !match_here_eq. cbn [span_lf]. rewrite N.eqb_refl.
  destruct (span_lf t) as [k rest].
  destruct (match_tail rest) as [[w r]|]; reflexivity.
Qed.

(** A pattern without line feed that the output starts with is one the
    input starts with. *)
Lemma strip_prefix_fix_export (p s r : js_string) :
  Forall (λ c, c ≠ LF) p →
  strip_prefix p (fix_export s) = Some r →
  ∃ s', strip_prefix p s = Some s' ∧ fix_export s' = r.
Proof.
  intros Hp. revert s. induction Hp as [|a p Ha Hp IH]; intros s; simpl.
  - intros [= <-]. eauto.
  - pose proof (fix_export_head s) as Hh.
    destruct (fix_export s) as [|b o] eqn:Eo; [discriminate|].
    destruct s as [|c s]; [discriminate|]. simpl in Hh. injection Hh as ->.
    destruct (N.eqb_spec a c) as [->|]; [|discriminate].
    rewrite fix_export_not_lf in Eo by exact Ha. injection Eo as <-.
    apply IH.
Qed.

Lemma export_no_lf : Forall (λ c, c ≠ LF) export_.
Proof. repeat constructor; discriminate. Qed.

Lemma match_tail_fix_export (s : js_string) :
  match_tail (fix_export s) ≠ None → match_tail s ≠ None.
Proof.
  destruct (match_tail (fix_export s)) as [[w r]|] eqn:E; [|congruence].
  intros _. apply match_tail_spec in E as [E Hw].
  assert (E1 : strip_prefix export_ (fix_export s) = Some (w :: r))
    by (apply strip_prefix_spec; exact E).
  apply strip_prefix_fix_export in E1 as (s' & E1 & E2); [|apply export_no_lf].
  pose proof (fix_export_head s') as Hh. rewrite E2 in Hh.
  destruct s' as [|w' s']; [discriminate|]. injection Hh as <-.
  apply strip_prefix_spec in E1.
  assert (Et : match_tail s = Some (w, s')) by (apply match_tail_spec; auto).
  congruence.
Qed.

Lemma fix_export_run (n : nat) (t : js_string) :
  head t ≠ Some LF → match_tail t = None →
  fix_export (repeat LF n ++ t) = repeat LF n ++ fix_export t.
Proof.
  intros Hh Ht. induction n as [|n IH]; [reflexivity|].
  change (repeat LF (S n) ++ t) with (LF :: (repeat LF n ++ t)).
  rewrite fix_export_cons, match_here_eq.
  change (LF :: (repeat LF n ++ t)) with (repeat LF (S n) ++ t).
  rewrite span_lf_run by exact Hh. rewrite Ht, IH. reflexivity.
Qed.

(** After a rewrite, a line feed in front of the output starts a match only
    if the input itself started with [_export] and a white space. *)
Lemma match_here_lf_fix_export (r : js_string) :
  match_here (LF :: fix_export r) ≠ None → match_tail r ≠ None.
Proof.
  destruct (span_lf r) as [n a1] eqn:E.
  apply span_lf_spec in E as [-> Hh].
  destruct n as [|n].
  - simpl. rewrite match_here_eq.
    change (LF :: fix_export a1) with (repeat LF 1 ++ fix_export a1).
    rewrite span_lf_run by (rewrite fix_export_head; exact Hh).
    intros H. apply match_tail_fix_export.
    destruct (match_tail (fix_export a1)); congruence.
  - intros H. exfalso. apply H. clear H.
    destruct (match_tail a1) as [[w r']|] eqn:Et.
    + apply match_tail_spec in Et as [-> Hw].
      rewrite fix_export_match by exact Hw.
      rewrite match_here_eq.
      change (LF :: repeat LF (S n) ++ u "export" ++ w :: fix_export r')
        with (repeat LF (S (S n)) ++ u "export" ++ w :: fix_export r').
      rewrite span_lf_run by discriminate. reflexivity.
    + rewrite fix_export_run by assumption.
      rewrite match_here_eq.
      change (LF :: repeat LF (S n) ++ fix_export a1)
        with (repeat LF (S (S n)) ++ fix_export a1).
      rewrite span_lf_run by (rewrite fix_export_head; exact Hh).
      destruct (match_tail (fix_export a1)) as [[w r']|] eqn:Ef; [|reflexivity].
      exfalso. apply (match_tail_fix_export a1); congruence.
Qed.

Lemma match_here_cons_fix_export (c : N) (s : js_string) :
  match_here (c :: s) = None → match_here (c :: fix_export s) = None.
Proof.
  intros E. destruct (N.eq_dec c LF) as [->|Hc];
    [|apply match_here_not_lf; exact Hc].
  destruct (match_here (LF :: fix_export s)) eqn:E'; [|reflexivity].
  exfalso.
  assert (Ht : match_tail s ≠ None)
    by (apply match_here_lf_fix_export; congruence).
  pose proof (match_tail_head s Ht) as Hh.
  rewrite match_here_eq in E.
  change (LF :: s) with (repeat LF 1 ++ s) in E.
  rewrite span_lf_run in E by (rewrite Hh; discriminate).
  destruct (match_tail s) as [[w r]|]; congruence.
Qed.

Lemma occurs_ws_cons_false (pat : js_string) (c : N) (s : js_string) :
  occurs_ws pat (c :: s) = false →
  match strip_prefix pat (c :: s) with
  | Some (w :: _) => is_white_space w
  | _ => false
  end = false ∧ occurs_ws pat s = false.
Proof. cbn [occurs_ws]. apply orb_false_elim. Qed.

Lemma occurs_ws_app_false (pat a s : js_string) :
  occurs_ws pat (a ++ s) = false → occurs_ws pat s = false.
Proof.
  induction a as [|c a IH]; [auto|].
  intros H. apply occurs_ws_cons_false in H as [_ H]. auto.
Qed.

Lemma occurs_ws_spec (pat s : js_string) :
  occurs_ws pat s = true ↔
  ∃ a w b, is_white_space w = true ∧ s = a ++ pat ++ w :: b.
Proof.
  induction s as [|c s IH].
  - split; [discriminate|]. intros (a & w & b & _ & E).
    destruct a, pat; discriminate.
  - cbn [occurs_ws]. rewrite orb_true_iff, IH. split.
    + intros [H | (a & w & b & Hw & ->)].
      * destruct (strip_prefix pat (c :: s)) as [[|w r]|] eqn:E;
          try discriminate.
        apply strip_prefix_spec in E. exists [], w, r. auto.
      * exists (c :: a), w, b. auto.
    + intros (a & w & b & Hw & E). destruct a as [|c' a].
      * left. cbn [app] in E. rewrite E.
        assert (E1 : strip_prefix pat (pat ++ w :: b) = Some (w :: b))
          by (apply strip_prefix_spec; reflexivity).
        rewrite E1. exact Hw.
      * right. injection E as -> ->. eauto.
Qed.

Lemma fix_export_idem_aux (n : nat) (s : js_string) :
  length s ≤ n → overlap_occurs s = false →
  fix_export (fix_export s) = fix_export s.
Proof.
  revert s. induction n as [|n IH]; intros s Hn Hc.
  - destruct s; [reflexivity | simpl in Hn; lia].
  - destruct s as [|c s0]; [reflexivity|].
    rewrite fix_export_cons.
    destruct (match_here (c :: s0)) as [[[g1 w] r]|] eqn:E.
    + pose proof (match_here_length _ _ _ _ E) as Hlen.
      apply match_here_spec in E as (k & -> & E & Hw).
      rewrite E in Hc. unfold overlap_occurs in *.
      change (repeat LF (S k)) with (LF :: repeat LF k) in Hc.
      rewrite repeat_cons, <- app_assoc in Hc.
      apply occurs_ws_app_false in Hc.
      assert (Hr : occurs_ws (LF :: u "_export" ++ LF :: u "_export") r = false).
      { apply (occurs_ws_app_false _ ([LF] ++ export_ ++ [w])).
        rewrite <- !app_assoc. exact Hc. }
      assert (IHr : fix_export (fix_export r) = fix_export r)
        by (apply IH; [simpl in *; lia | exact Hr]).
      rewrite fix_export_run by (reflexivity || discriminate).
      f_equal. change (u "export") with [101; 120; 112; 111; 114; 116]%N.
      cbn [app]. rewrite !fix_export_not_lf by discriminate.
      do 6 f_equal.
      destruct (N.eq_dec w LF) as [->|Hne];
        [|rewrite fix_export_not_lf, IHr by exact Hne; reflexivity].
      apply occurs_ws_cons_false in Hc as [Hc _].
      assert (Ht : match_tail r = None).
      { assert (Hs : match strip_prefix (u "_export") r with
                     | Some (w :: _) => is_white_space w
                     | _ => false
                     end = false) by exact Hc.
        unfold match_tail.
        destruct (strip_prefix (u "_export") r) as [[|w t]|];
          try reflexivity.
        rewrite Hs. reflexivity. }
      rewrite fix_export_cons.
      destruct (match_here (LF :: fix_export r)) eqn:E'.
      * exfalso. apply (match_here_lf_fix_export r); congruence.
      * rewrite IHr. reflexivity.
    + apply occurs_ws_cons_false in Hc as [_ Hc].
      rewrite fix_export_cons, (match_here_cons_fix_export _ _ E).
      rewrite IH by (simpl in *; lia || exact Hc). reflexivity.
Qed.

Lemma strip_prefix_app_lf (p a t : js_string) :
  Forall (λ c, c ≠ LF) p → strip_prefix p a = None →
  strip_prefix p (a ++ LF :: t) = None.
Proof.
  intros Hp. revert a. induction Hp as [|x p Hx Hp IH]; intros a; simpl.
  - discriminate.
  - destruct a as [|y a]; simpl.
    + intros _. destruct (N.eqb_spec x LF); [contradiction|reflexivity].
    + destruct (x =? y)%N; [apply IH | reflexivity].
Qed.

(** How a string [a] that is followed by a line feed can meet the tail of
    the pattern: it is [_export] itself, or it starts with [_export] and a
    white space, or the tail does not match. *)
Lemma match_tail_app_cases (a : js_string) :
  a = export_ ∨
  (∃ w r, a = export_ ++ w :: r ∧ is_white_space w = true) ∨
  (∀ t, match_tail (a ++ LF :: t) = None).
Proof.
  destruct (strip_prefix export_ a) as [r|] eqn:E.
  - apply strip_prefix_spec in E. subst a. destruct r as [|w r].
    + left. apply app_nil_r.
    + destruct (is_white_space w) eqn:Hw; [right; left; eauto|].
      right; right. intros t.
      destruct (match_tail ((export_ ++ w :: r) ++ LF :: t)) as [[w' r']|] eqn:Et;
        [|reflexivity].
      apply match_tail_spec in Et as [Et Hw'].
      rewrite <- app_assoc in Et. apply app_inv_head in Et.
      injection Et as -> _. congruence.
  - right; right. intros t. unfold match_tail. fold export_.
    rewrite strip_prefix_app_lf by (apply export_no_lf || exact E).
    reflexivity.
Qed.

(** Two line feeds in a row cut the scan in two: what precedes them is
    rewritten as if the input ended after the first, and the rest on its
    own. *)
Lemma fix_export_split_aux (n : nat) (a t : js_string) :
  length a ≤ n →
  fix_export (a ++ LF :: LF :: t) =
    fix_export (a ++ [LF]) ++ fix_export (LF :: t).
Proof.
  revert a. induction n as [|n IH]; intros a Hn.
  - destruct a; [|simpl in Hn; lia]. simpl. apply fix_export_lf_lf.
  - destruct a as [|c a]; [simpl; apply fix_export_lf_lf|].
    simpl in Hn. destruct (N.eq_dec c LF) as [->|Hc].
    2:{ cbn [app]. rewrite !fix_export_not_lf by exact Hc.
        rewrite IH by lia. reflexivity. }
    destruct a as [|c1 a1].
    { cbn [app]. rewrite !fix_export_lf_lf. reflexivity. }
    destruct (N.eq_dec c1 LF) as [->|Hc1].
    { assert (IH' := IH (LF :: a1) ltac:(simpl in *; lia)).
      cbn [app] in IH' |- *. rewrite !fix_export_lf_lf, IH'. reflexivity. }
    set (a := c1 :: a1) in *.
    assert (Hspan : ∀ t', span_lf (LF :: a ++ t') = (1, a ++ t')).
    { intros t'. apply (span_lf_run 1). simpl. congruence. }
    assert (Hstep : ∀ t',
      fix_export (LF :: a ++ t') =
        match match_tail (a ++ t') with
        | Some (w, r) => [LF] ++ u "export" ++ w :: fix_export r
        | None => LF :: fix_export (a ++ t')
        end).
    { intros t'. rewrite fix_export_cons, match_here_eq, Hspan.
      destruct (match_tail (a ++ t')) as [[w r]|]; reflexivity. }
    change ((LF :: a) ++ LF :: LF :: t) with (LF :: a ++ LF :: LF :: t).
    change ((LF :: a) ++ [LF]) with (LF :: a ++ [LF]).
    rewrite !Hstep.
    destruct (match_tail_app_cases a) as [Ea | [(w & r & Ea & Hw) | Hnone]].
    + rewrite Ea.
      assert (E1 : ∀ t', match_tail (export_ ++ LF :: t') = Some (LF, t'))
        by (intros t'; apply match_tail_spec; auto).
      rewrite !E1. reflexivity.
    + assert (E1 : ∀ t', match_tail (a ++ t') = Some (w, r ++ t')).
      { intros t'. apply match_tail_spec. rewrite Ea, <- app_assoc. auto. }
      rewrite !E1.
      assert (Hr : length r ≤ n).
      { rewrite Ea, length_app in Hn. simpl in Hn. lia. }
      rewrite (IH r Hr). cbn [app]. reflexivity.
    + rewrite !Hnone. rewrite (IH a) by lia. reflexivity.
Qed.

Lemma fix_export_split (a t : js_string) :
  fix_export (a ++ LF :: LF :: t) =
    fix_export (a ++ [LF]) ++ fix_export (LF :: t).
Proof. apply (fix_export_split_aux (length a)). lia. Qed.

Lemma snoc_case {A : Type} (l : list A) :
  l = [] ∨ ∃ l' x, l = l' ++ [x].
Proof. induction l using rev_ind; eauto. Qed.

Lemma match_here_singleton (x : N) : match_here [x] = None.
Proof.
  destruct (match_here [x]) as [[[g1 w] r]|] eqn:E; [|reflexivity].
  apply match_here_spec in E as (k & -> & E & _).
  apply (f_equal (@length N)) in E. rewrite !length_app in E.
  simpl in E. lia.
Qed.

(** The rewrite keeps the last code unit of its input. *)
Lemma fix_export_last_aux (n : nat) (s : js_string) (x : N) :
  length s ≤ n → ∃ o, fix_export (s ++ [x]) = o ++ [x].
Proof.
  revert s. induction n as [|n IH]; intros s Hn.
  - destruct s; [|simpl in Hn; lia]. exists []. simpl.
    rewrite fix_export_cons, match_here_singleton. reflexivity.
  - destruct s as [|c s].
    { apply (IH []). simpl. lia. }
    simpl in Hn. change ((c :: s) ++ [x]) with (c :: (s ++ [x])).
    rewrite fix_export_cons.
    destruct (match_here (c :: s ++ [x])) as [[[g1 w] r]|] eqn:E.
    + pose proof (match_here_length _ _ _ _ E) as Hlen.
      apply match_here_spec in E as (k & -> & E & Hw).
      destruct (snoc_case r) as [->|(r' & y & ->)].
      * exists (repeat LF (S k) ++ u "export").
        change (c :: s ++ [x]) with ((c :: s) ++ [x]) in E.
        change (repeat LF (S k) ++ export_ ++ [w])
          with (repeat LF (S k) ++ export_ ++ [] ++ [w]) in E.
        rewrite !app_assoc in E. apply app_inj_tail in E as [_ ->].
        rewrite <- app_assoc. reflexivity.
      * change (c :: s ++ [x]) with ((c :: s) ++ [x]) in E.
        change (repeat LF (S k) ++ export_ ++ w :: r' ++ [y])
          with (repeat LF (S k) ++ export_ ++ (w :: r') ++ [y]) in E.
        rewrite !app_assoc in E. apply app_inj_tail in E as [_ ->].
        destruct (IH r') as [o Ho].
        { simpl in Hlen. rewrite !length_app in Hlen. simpl in Hlen. lia. }
        exists (repeat LF (S k) ++ u "export" ++ w :: o).
        rewrite Ho, <- !app_assoc. reflexivity.
    + destruct (IH s) as [o Ho]; [lia|].
      exists (c :: o). rewrite Ho. reflexivity.
Qed.

Lemma fix_export_last (s : js_string) (x : N) :
  ∃ o, fix_export (s ++ [x]) = o ++ [x].
Proof. apply (fix_export_last_aux (length s)). lia. Qed.

Lemma legacy_occurs_cons_false (c : N) (s : js_string) :
  legacy_occurs (c :: s) = false →
  match_here (c :: s) = None ∧ legacy_occurs s = false.
Proof.
  unfold legacy_occurs. revert c. induction s as [|c' s IH]; intros c H.
  - split; [apply match_here_singleton | reflexivity].
  - apply occurs_ws_cons_false in H as [H1 H2].
    split; [|exact H2].
    destruct (IH c' H2) as [E' _].
    rewrite match_here_eq in E' |- *. cbn [span_lf] in E' |- *.
    destruct (N.eqb_spec c LF) as [->|]; [|reflexivity].
    destruct (N.eqb_spec c' LF) as [->|Hc'].
    + destruct (span_lf s) as [k rest].
      destruct (match_tail rest) as [[w r]|]; [discriminate|reflexivity].
    + destruct (match_tail (c' :: s)) as [[w r]|] eqn:Et; [|reflexivity].
      apply match_tail_spec in Et as [Et Hw]. rewrite Et in H1.
      simpl in H1. congruence.
Qed.

Lemma legacy_occurs_spec (s : js_string) :
  legacy_occurs s = true ↔
  ∃ a w b, is_white_space w = true ∧ s = a ++ LF :: u "_export" ++ w :: b.
Proof. apply occurs_ws_spec. Qed.

Lemma overlap_occurs_spec (s : js_string) :
  overlap_occurs s = true ↔
  ∃ a w b, is_white_space w = true ∧
           s = a ++ LF :: u "_export" ++ LF :: u "_export" ++ w :: b.
Proof.
  unfold overlap_occurs. rewrite occurs_ws_spec.
  split; intros (a & w & b & Hw & ->); exists a, w, b; split; auto;
    cbn [app]; rewrite <- ?app_assoc; reflexivity.
Qed.

Lemma fix_export_unchanged (s : js_string) :
  legacy_occurs s = false → fix_export s = s.
Proof.
  induction s as [|c s IH]; [reflexivity|].
  intros H. apply legacy_occurs_cons_false in H as [E H].
  rewrite fix_export_cons, E, IH by exact H. reflexivity.
Qed.

End ExportFixFacts.

(** C2, as stated, fails: on a line feed, [_export], a line feed, [_export]
    and a space, the first pass consumes the second line feed as the white
    space that ends its match and leaves the second [_export]; the second
    pass rewrites it. *)
Lemma fix_export_twice_differs :
  fix_export overlapping_exports =
    [LF] ++ u "export" ++ [LF] ++ u "_export" ++ [32] ∧
  fix_export (fix_export overlapping_exports) =
    [LF] ++ u "export" ++ [LF] ++ u "export" ++ [32] ∧
  fix_export (fix_export overlapping_exports) ≠ fix_export overlapping_exports.
Proof. vm_compute. repeat split. discriminate. Qed.

(** C2, amended: the rewrite is idempotent on every string that nowhere
    holds a line feed, [_export], a line feed, [_export] and a white space
    in a row: on such a string applying it twice yields the same result as
    applying it once. *)
Theorem fix_export_idempotent (s : js_string) :
  overlap_occurs s = false →
  fix_export (fix_export s) = fix_export s.
Proof. apply (fix_export_idem_aux (length s)). lia. Qed.

Lemma fix_export_idempotent_witness :
  overlap_occurs legacy_source = false ∧
  fix_export (fix_export legacy_source) = fix_export legacy_source.
Proof.
  split; [reflexivity | apply fix_export_idempotent; reflexivity].
Defined.

(** C3: an occurrence of the legacy pattern (line feed, line feed,
    [_export], white space) comes out of one application rewritten: its two
    line feeds, then [export], then the same white space, followed by the
    rewrite of the rest of the input; and a string that nowhere holds a line
    feed, [_export] and a white space in a row is left unchanged. *)
Theorem fix_export_rewrites_legacy_pattern :
  (∀ (a b : js_string) (w : N),
     is_white_space w = true →
     ∃ a', fix_export (a ++ [LF]) = a' ++ [LF] ∧
           fix_export (a ++ [LF; LF] ++ u "_export" ++ w :: b) =
             a' ++ [LF; LF] ++ u "export" ++ w :: fix_export b) ∧
  (∀ s : js_string, legacy_occurs s = false → fix_export s = s).
Proof.
  split; [|apply fix_export_unchanged].
  intros a b w Hw. destruct (fix_export_last a LF) as [a' Ha].
  exists a'. split; [exact Ha|].
  change (a ++ [LF; LF] ++ u "_export" ++ w :: b)
    with (a ++ LF :: LF :: u "_export" ++ w :: b).
  rewrite fix_export_split, Ha.
  assert (Hm : fix_export (LF :: u "_export" ++ w :: b) =
               LF :: u "export" ++ w :: fix_export b)
    by exact (fix_export_match 0 w b Hw).
  rewrite Hm, <- app_assoc. reflexivity.
Qed.

Lemma fix_export_rewrites_legacy_pattern_witness :
  (∃ a', fix_export (u "import x" ++ [LF]) = a' ++ [LF] ∧
         fix_export (u "import x" ++ [LF; LF] ++ u "_export" ++ 32%N :: u "default f") =
           a' ++ [LF; LF] ++ u "export" ++ 32%N :: fix_export (u "default f")) ∧
  fix_export (u "const _export = 1") = u "const _export = 1".
Proof.
  split.
  - apply (proj1 fix_export_rewrites_legacy_pattern). reflexivity.
  - apply (proj2 fix_export_rewrites_legacy_pattern). reflexivity.
Defined.

(** ** The component table *)

Section ComponentFacts.

Import Mdx.

Variable preToCodeBlock : element_props → option code_block.

Lemma components_dom :
  dom (components preToCodeBlock) = ({[ "h1"; "h2"; "p"; "pre" ]} : gset string).
Proof.
  unfold components. rewrite !dom_insert_L, dom_singleton_L. set_solver.
Qed.

Lemma components_lookup (k : string) :
  is_Some (components preToCodeBlock !! k) ↔
  k = "h1" ∨ k = "h2" ∨ k = "p" ∨ k = "pre".
Proof.
  rewrite <- elem_of_dom, components_dom.
  rewrite !elem_of_union, !elem_of_singleton. tauto.
Qed.

Lemma pre_some (preProps : element_props) (b : code_block) :
  preToCodeBlock preProps = Some b →
  pre preToCodeBlock preProps =
    Ok (JElem "Code"
          (("codeString", AVal (VStr (fix_export (codeString b)))) :: code_rest b)
          []).
Proof. intros E. unfold pre. rewrite E. reflexivity. Qed.

Lemma pre_none (preProps : element_props) :
  preToCodeBlock preProps = None →
  pre preToCodeBlock preProps = Throw TypeError.
Proof. intros E. unfold pre. rewrite E. reflexivity. Qed.

End ComponentFacts.

(** C1, what the code does: when [preToCodeBlock] extracts nothing, the
    read of [props.codeString] throws before the test [if (props)] is
    reached, so the handler fails instead of returning the plain [pre]
    element; its [else] branch is never taken. *)
Theorem pre_without_code_throws
    (preToCodeBlock : Mdx.element_props → option Mdx.code_block)
    (preProps : Mdx.element_props) :
  preToCodeBlock preProps = None →
  Mdx.pre preToCodeBlock preProps = Throw TypeError ∧
  Mdx.pre preToCodeBlock preProps ≠
    Ok (JElem "pre" (Mdx.props_attrs preProps) (Mdx.props_children preProps)).
Proof.
  intros E. rewrite (pre_none _ _ E). split; [reflexivity | discriminate].
Qed.

Lemma pre_without_code_throws_witness :
  Mdx.preToCodeBlock_simple bare_pre = None ∧
  Mdx.pre Mdx.preToCodeBlock_simple bare_pre = Throw TypeError ∧
  Mdx.pre Mdx.preToCodeBlock_simple bare_pre ≠
    Ok (JElem "pre" (Mdx.props_attrs bare_pre) (Mdx.props_children bare_pre)).
Proof.
  split; [reflexivity | apply pre_without_code_throws; reflexivity].
Defined.

(** C6: the table has exactly the four keys [h1], [h2], [p] and [pre];
    they render [Title], [Subtitle], [Paragraph] with the props of the node
    and, for a code fence, [Code] with the extracted props; every other
    node kind, a list item or a block quote for instance, has no entry. *)
Theorem components_table
    (preToCodeBlock : Mdx.element_props → option Mdx.code_block) :
  let table := Mdx.components preToCodeBlock in
  dom table = ({[ "h1"; "h2"; "p"; "pre" ]} : gset string) ∧
  (∀ k, is_Some (table !! k) ↔ k = "h1" ∨ k = "h2" ∨ k = "p" ∨ k = "pre") ∧
  table !! "li" = None ∧ table !! "blockquote" = None ∧
  table !! "h1" = Some Mdx.h1 ∧
  table !! "h2" = Some Mdx.h2 ∧
  table !! "p" = Some Mdx.p ∧
  table !! "pre" = Some (Mdx.pre preToCodeBlock) ∧
  (∀ props,
     Mdx.h1 props =
       Ok (JElem "Title" (Mdx.props_attrs props) (Mdx.props_children props)) ∧
     Mdx.h2 props =
       Ok (JElem "Subtitle" (Mdx.props_attrs props) (Mdx.props_children props)) ∧
     Mdx.p props =
       Ok (JElem "Paragraph" (Mdx.props_attrs props) (Mdx.props_children props))) ∧
  (∀ preProps b,
     preToCodeBlock preProps = Some b →
     Mdx.pre preToCodeBlock preProps =
       Ok (JElem "Code"
             (("codeString", AVal (VStr (fix_export (Mdx.codeString b))))
              :: Mdx.code_rest b) [])).
Proof.
  cbv zeta. split; [apply components_dom|].
  split; [apply components_lookup|].
  repeat split; try reflexivity.
  intros preProps b. apply pre_some.
Qed.

Lemma components_table_witness :
  Mdx.components Mdx.preToCodeBlock_simple !! "pre"
    = Some (Mdx.pre Mdx.preToCodeBlock_simple) ∧
  Mdx.pre Mdx.preToCodeBlock_simple fenced_pre =
    Ok (JElem "Code"
          [("codeString",
            AVal (VStr (u "import a" ++ [LF; LF] ++ u "export default a")));
           ("className", AVal (VStr (u "language-js")))] []).
Proof.
  destruct (components_table Mdx.preToCodeBlock_simple)
    as (_ & _ & _ & _ & _ & _ & _ & Hpre & _ & Hcode).
  split; [exact Hpre|].
  exact (Hcode fenced_pre _ eq_refl).
Defined.

(** ** The post template *)

Section PostFacts.

Import Template.

Variables (lib : Lib) (config : Config) (site : Site) (mdx : Mdx)
  (pageContext : PageContext).

Ltac post_inv H :=
  unfold Post in H;
  destruct (banner (frontmatter mdx)) as [file|];
    [destruct (childImageSharp file);
       [destruct (site_keywords (siteMetadata site))|]|];
  cbn [bind member] in H;
  try discriminate H;
  injection H as <-.

(** The template fails only on a banner whose image data is missing. *)
Lemma Post_total_without_banner :
  banner (frontmatter mdx) = None →
  ∃ page, Post lib config site mdx pageContext = Ok page.
Proof. intros E. unfold Post. rewrite E. cbn [bind]. eauto. Qed.

Lemma Post_with_banner (file : File) (sharp : ImageSharp) (kw : list js_string) :
  banner (frontmatter mdx) = Some file →
  childImageSharp file = Some sharp →
  site_keywords (siteMetadata site) = Some kw →
  ∃ page, Post lib config site mdx pageContext = Ok page ∧
          has_tag "Img" page = true.
Proof.
  intros E1 E2 E3. unfold Post. rewrite E1, E2, E3. cbn [bind member].
  eexists. split; [reflexivity|].
  destruct (video_url (frontmatter mdx)) as [[|? ?]|],
           (date (frontmatter mdx)) as [[|? ?]|]; reflexivity.
Qed.

Lemma Post_banner_tags (page : jsx) :
  Post lib config site mdx pageContext = Ok page →
  banner (frontmatter mdx) = None →
  has_tag "Img" page = false ∧
  ∃ container,
    find_tag "Container" (mounted page) = Some container ∧
    map tag_of (children_of container) =
      ["h1"; "div"; "br"]
      ++ (if truthy (of_nullable (video_url (frontmatter mdx)))
          then ["Aside"] else [])
      ++ ["MDXRenderer"].
Proof.
  intros H E. unfold Post in H. rewrite E in H. cbn [bind] in H.
  injection H as <-.
  destruct (video_url (frontmatter mdx)) as [[|? ?]|],
           (video_teaser (frontmatter mdx)) as [[|? ?]|],
           (date (frontmatter mdx)) as [[|? ?]|];
    (split; [reflexivity | eexists; split; reflexivity]).
Qed.

Lemma Post_callout_present (page : jsx) :
  Post lib config site mdx pageContext = Ok page →
  has_tag "Aside" page = truthy (of_nullable (video_url (frontmatter mdx))).
Proof.
  intros H. post_inv H;
    destruct (video_url (frontmatter mdx)) as [[|? ?]|],
             (date (frontmatter mdx)) as [[|? ?]|]; reflexivity.
Qed.

Lemma Post_callout (page : jsx) :
  Post lib config site mdx pageContext = Ok page →
  truthy (of_nullable (video_url (frontmatter mdx))) = true →
  ∃ heading,
    tag_of heading = "h3" ∧
    find_tag "Aside" (mounted page) =
      Some (JElem "Aside" []
              ([heading]
               ++ (if truthy (of_nullable (video_teaser (frontmatter mdx)))
                   then [JElem "p" []
                           [JVal (of_nullable (video_teaser (frontmatter mdx)))]]
                   else [])
               ++ [watch_link (of_nullable (video_url (frontmatter mdx)))])).
Proof.
  intros H Hu.
  assert (∃ aside,
            find_tag "Aside" (mounted page) = Some aside ∧
            aside =
              JElem "Aside" []
                (firstn 1 (children_of aside)
                 ++ (if truthy (of_nullable (video_teaser (frontmatter mdx)))
                     then [JElem "p" []
                             [JVal (of_nullable (video_teaser (frontmatter mdx)))]]
                     else [])
                 ++ [watch_link (of_nullable (video_url (frontmatter mdx)))]) ∧
            map tag_of (firstn 1 (children_of aside)) = ["h3"])
    as (aside & Ef & Ea & Eh).
  { post_inv H;
      destruct (video_url (frontmatter mdx)) as [[|? ?]|]; try discriminate Hu;
      destruct (video_teaser (frontmatter mdx)) as [[|? ?]|],
               (date (frontmatter mdx)) as [[|? ?]|],
               (title (frontmatter mdx)) as [?|];
      (eexists; split; [reflexivity | split; reflexivity]). }
  destruct (firstn 1 (children_of aside)) as [|heading [|? ?]] eqn:E1;
    try discriminate Eh.
  exists heading. split; [injection Eh as ->; reflexivity|].
  rewrite Ef. f_equal. exact Ea.
Qed.

Lemma Post_share (page : jsx) :
  Post lib config site mdx pageContext = Ok page →
  ∃ attrs blocks,
    page =
      JElem "Layout" attrs
        (blocks ++
         [JElem "Container" [("noVerticalPadding", AVal (VBool true))]
            [share_widget config
               (to_string (of_nullable (slug (frontmatter mdx))))
               (of_nullable (title (frontmatter mdx)));
             br]]).
Proof.
  intros H. post_inv H; eexists _, [_; _]; reflexivity.
Qed.

End PostFacts.

(** C4: for a record whose banner is absent the template returns a page;
    the page holds no image element, and the blocks that are mounted in
    its article are the title, the date block, the line break, the video
    callout if a video URL is set, and the body: there is no banner block
    between the date block and the line break. *)
Theorem post_without_banner
    (lib : Lib) (config : Config) (site : Site) (mdx : Mdx) (ctx : PageContext) :
  banner (frontmatter mdx) = None →
  ∃ page container,
    Template.Post lib config site mdx ctx = Ok page ∧
    has_tag "Img" page = false ∧
    find_tag "Container" (mounted page) = Some container ∧
    map tag_of (children_of container) =
      ["h1"; "div"; "br"]
      ++ (if truthy (of_nullable (video_url (frontmatter mdx)))
          then ["Aside"] else [])
      ++ ["MDXRenderer"].
Proof.
  intros E.
  destruct (Post_total_without_banner lib config site mdx ctx E) as [page H].
  destruct (Post_banner_tags lib config site mdx ctx page H E)
    as (Himg & container & Hc & Ht).
  exists page, container. auto.
Qed.

Lemma post_without_banner_witness :
  banner (frontmatter (demo01 None None None)) = None ∧
  ∃ page container,
    Template.Post example_lib website example_site (demo01 None None None)
      example_context = Ok page ∧
    has_tag "Img" page = false ∧
    find_tag "Container" (mounted page) = Some container ∧
    map tag_of (children_of container) = ["h1"; "div"; "br"; "MDXRenderer"].
Proof.
  split; [reflexivity|].
  apply (post_without_banner example_lib website example_site
           (demo01 None None None) example_context).
  reflexivity.
Defined.

(** C5: on the page of a record, (i) with a video URL set and no teaser
    the callout is mounted with its heading and its link and no teaser
    paragraph; (ii) with neither set there is no callout at all; (iii)
    with both set the callout holds the paragraph with the teaser text
    between the heading and the link. Set means set to a value that the
    test of the template accepts, a non-empty string. *)
Theorem post_video_callout
    (lib : Lib) (config : Config) (site : Site) (mdx : Mdx) (ctx : PageContext)
    (page : jsx) :
  Template.Post lib config site mdx ctx = Ok page →
  let url := of_nullable (video_url (frontmatter mdx)) in
  let teaser := of_nullable (video_teaser (frontmatter mdx)) in
  (truthy url = true → video_teaser (frontmatter mdx) = None →
   ∃ heading,
     tag_of heading = "h3" ∧
     find_tag "Aside" (mounted page) =
       Some (JElem "Aside" [] [heading; watch_link url])) ∧
  (video_url (frontmatter mdx) = None → video_teaser (frontmatter mdx) = None →
   has_tag "Aside" page = false) ∧
  (truthy url = true → truthy teaser = true →
   ∃ heading,
     tag_of heading = "h3" ∧
     find_tag "Aside" (mounted page) =
       Some (JElem "Aside" []
               [heading; JElem "p" [] [JVal teaser]; watch_link url])).
Proof.
  intros H url teaser. subst url teaser. repeat split.
  - intros Hu Ht.
    destruct (Post_callout lib config site mdx ctx page H Hu) as (h & Hh & Hf).
    rewrite Ht in Hf. exists h. auto.
  - intros Hu _. rewrite (Post_callout_present lib config site mdx ctx page H), Hu.
    reflexivity.
  - intros Hu Ht.
    destruct (Post_callout lib config site mdx ctx page H Hu) as (h & Hh & Hf).
    rewrite Ht in Hf. exists h. auto.
Qed.

Lemma post_video_callout_witness :
  (∃ page heading,
     Template.Post example_lib website example_site
       (demo01 None (Some example_video_url) None) example_context = Ok page ∧
     tag_of heading = "h3" ∧
     find_tag "Aside" (mounted page) =
       Some (JElem "Aside" [] [heading; watch_link (VStr example_video_url)])) ∧
  (∃ page,
     Template.Post example_lib website example_site
       (demo01 None None None) example_context = Ok page ∧
     has_tag "Aside" page = false) ∧
  (∃ page heading,
     Template.Post example_lib website example_site
       (demo01 None (Some example_video_url) (Some example_teaser))
       example_context = Ok page ∧
     tag_of heading = "h3" ∧
     find_tag "Aside" (mounted page) =
       Some (JElem "Aside" []
               [heading; JElem "p" [] [JVal (VStr example_teaser)];
                watch_link (VStr example_video_url)])).
Proof.
  repeat split.
  - eexists.
    destruct (post_video_callout example_lib website example_site
                (demo01 None (Some example_video_url) None)
                example_context _ eq_refl)
      as (H1 & _ & _).
    destruct (H1 eq_refl eq_refl) as (h & Hh & Hf).
    exists h. repeat split; [exact Hh | exact Hf].
  - eexists. split; [reflexivity|].
    apply (post_video_callout example_lib website example_site
             (demo01 None None None) example_context _ eq_refl); reflexivity.
  - eexists.
    destruct (post_video_callout example_lib website example_site
                (demo01 None (Some example_video_url) (Some example_teaser))
                example_context _ eq_refl)
      as (_ & _ & H3).
    destruct (H3 eq_refl eq_refl) as (h & Hh & Hf).
    exists h. repeat split; [exact Hh | exact Hf].
Defined.

(** C7: the last block of the page of a record with slug [s] and title
    [t] is the container that holds the share widget and a line break;
    the widget receives the title [t] and the URL made of the configured
    site URL, a slash, [s] and a closing slash. *)
Theorem post_share_widget
    (lib : Lib) (config : Config) (site : Site) (mdx : Mdx) (ctx : PageContext)
    (page : jsx) (s t : js_string) :
  Template.Post lib config site mdx ctx = Ok page →
  slug (frontmatter mdx) = Some s →
  title (frontmatter mdx) = Some t →
  ∃ attrs blocks,
    page =
      JElem "Layout" attrs
        (blocks ++
         [JElem "Container" [("noVerticalPadding", AVal (VBool true))]
            [JElem "Share"
               [("url", AVal (VStr (siteUrl config ++ u "/" ++ s ++ u "/")));
                ("title", AVal (VStr t));
                ("twitterHandle", AVal (VStr (twitterHandle config)))] [];
             Template.br]]).
Proof.
  intros H Hs Ht.
  destruct (Post_share lib config site mdx ctx page H) as (attrs & blocks & ->).
  rewrite Hs, Ht. exists attrs, blocks. reflexivity.
Qed.

Lemma post_share_widget_witness :
  ∃ page attrs blocks,
    Template.Post example_lib website example_site (demo01 None None None)
      example_context = Ok page ∧
    page =
      JElem "Layout" attrs
        (blocks ++
         [JElem "Container" [("noVerticalPadding", AVal (VBool true))]
            [JElem "Share"
               [("url", AVal (VStr (u "https://joefiorini.com/demo-01/")));
                ("title",
                 AVal (VStr (u "Taming Complex State with Union Types")));
                ("twitterHandle", AVal (VStr (u "@joegrammer2")))] [];
             Template.br]]).
Proof.
  eexists.
  destruct (post_share_widget example_lib website example_site
              (demo01 None None None) example_context _
              (u "demo-01") (u "Taming Complex State with Union Types")
              eq_refl eq_refl eq_refl)
    as (attrs & blocks & E).
  exists attrs, blocks. split; [reflexivity | exact E].
Defined.

(** ** The footer *)

Section FooterFacts.

Import Components.

Lemma u_inj (s1 s2 : string) : u s1 = u s2 → s1 = s2.
Proof.
  unfold u. intros H.
  rewrite <- (string_of_list_ascii_of_string s1),
          <- (string_of_list_ascii_of_string s2).
  f_equal. revert H.
  generalize (list_ascii_of_string s1) (list_ascii_of_string s2).
  induction l as [|a l IH]; intros [|b l']; simpl; try discriminate; auto.
  intros [= Hab Hl]. f_equal; [|auto].
  rewrite <- (ascii_N_embedding a), <- (ascii_N_embedding b), Hab. reflexivity.
Qed.

Lemma number_to_string_inj (n m : Z) :
  number_to_string n = number_to_string m → n = m.
Proof.
  unfold number_to_string. intros H%u_inj.
  assert (Hnn : ∀ z, Z.to_int z ≠ Decimal.Pos Decimal.Nil ∧
                     Z.to_int z ≠ Decimal.Neg Decimal.Nil).
  { intros z. split; intros E; pose proof (f_equal Z.of_int E) as E';
      rewrite DecimalZ.of_to in E'; simpl in E'; subst z; discriminate E. }
  apply DecimalZ.to_int_inj.
  assert (Some (Z.to_int n) = Some (Z.to_int m)) as [= E]; [|exact E].
  rewrite <- (NilZero.isi (Z.to_int n)), <- (NilZero.isi (Z.to_int m));
    try apply Hnn.
  rewrite H. reflexivity.
Qed.

Variables (lib : Lib) (year : Z) (author noSubscribeForm isPost : js_value).

Lemma Footer_copyright_block :
  copyright_block (mounted (Footer lib year author noSubscribeForm isPost)) =
    Some (JElem "div"
            [("css", ACss ["font-size: 90%;"; "opacity: 0.7;"])]
            (if truthy author then [JVal (VStr (copyright author year))]
             else if renders_nothing (JVal author) then []
             else [JVal author])).
Proof.
  unfold Footer, and_then, js_and.
  destruct (truthy noSubscribeForm), (truthy isPost);
    destruct author as [| |[|]|[| |]|[|]]; reflexivity.
Qed.

Lemma Footer_subscribe_slot :
  subscribe_slot (Footer lib year author noSubscribeForm isPost) =
    Some (if truthy noSubscribeForm then JVal (VBool false)
          else JElem "div" []
                 [if truthy isPost then JElem "HireMe" [] [] else JVal isPost;
                  JElem "SubscribeForm" [] [];
                  JElem "br" [] [];
                  JElem "br" [] []]).
Proof.
  unfold Footer, and_then. cbn [truthy].
  destruct (truthy noSubscribeForm); reflexivity.
Qed.

Lemma Footer_has_tags :
  has_tag "SubscribeForm" (Footer lib year author noSubscribeForm isPost)
    = negb (truthy noSubscribeForm) ∧
  has_tag "HireMe" (Footer lib year author noSubscribeForm isPost)
    = truthy isPost && negb (truthy noSubscribeForm).
Proof.
  unfold Footer, and_then. cbn [truthy].
  destruct (truthy noSubscribeForm), (truthy isPost); split; reflexivity.
Qed.

End FooterFacts.

(** C9: the block of the copyright line holds that line exactly when the
    [author] prop is truthy; with an absent author ([undefined] or [null])
    the block is empty; the line is the author, a space, the copyright
    sign, a space and the year read from the clock, so that two different
    years give two different footers for the same props. *)
Theorem footer_copyright
    (lib : Lib) (year : Z) (author noSubscribeForm isPost : js_value) :
  let footer := Components.Footer lib year author noSubscribeForm isPost in
  let line := JVal (VStr (Components.copyright author year)) in
  (∃ css kids,
     copyright_block (mounted footer) = Some (JElem "div" css kids) ∧
     (kids = [line] ↔ truthy author = true) ∧
     (author = VUndefined ∨ author = VNull → kids = [])) ∧
  (∀ name, author = VStr name →
     Components.copyright author year =
       name ++ [32; 169; 32]%N ++ number_to_string year) ∧
  (truthy author = true →
   ∀ year', year' ≠ year →
     Components.Footer lib year' author noSubscribeForm isPost ≠ footer).
Proof.
  cbv zeta. repeat split.
  - eexists _, _. split; [apply Footer_copyright_block|]. split.
    + destruct author as [| |[|]|[| |]|[|]]; cbn; split;
        try reflexivity; try discriminate; try congruence.
    + intros [-> | ->]; reflexivity.
  - intros name ->. reflexivity.
  - intros Ha year' Hy E.
    pose proof (Footer_copyright_block lib year author noSubscribeForm isPost) as H1.
    pose proof (Footer_copyright_block lib year' author noSubscribeForm isPost) as H2.
    rewrite E, H1, Ha in H2. injection H2 as H2.
    unfold Components.copyright in H2.
    apply app_inv_head, app_inv_head, number_to_string_inj in H2.
    congruence.
Qed.

Lemma footer_copyright_witness :
  Components.copyright (VStr (u "Joe Fiorini")) 2019 =
    u "Joe Fiorini" ++ [32; 169; 32]%N ++ u "2019" ∧
  Components.Footer example_lib 2020 (VStr (u "Joe Fiorini")) VUndefined VUndefined
    ≠ Components.Footer example_lib 2019 (VStr (u "Joe Fiorini")) VUndefined VUndefined.
Proof.
  destruct (footer_copyright example_lib 2019 (VStr (u "Joe Fiorini"))
              VUndefined VUndefined) as (_ & Hline & Hclock).
  split.
  - exact (Hline _ eq_refl).
  - apply (Hclock eq_refl 2020%Z). discriminate.
Defined.

(** C10: the subscribe section is in the footer exactly when
    [noSubscribeForm] is falsy, and the [HireMe] block is in it exactly
    when [isPost] is truthy as well; with [noSubscribeForm] set there is
    no [HireMe] block. *)
Theorem footer_subscribe_and_hire_me
    (lib : Lib) (year : Z) (author noSubscribeForm isPost : js_value) :
  let footer := Components.Footer lib year author noSubscribeForm isPost in
  subscribe_slot footer =
    Some (if truthy noSubscribeForm then JVal (VBool false)
          else JElem "div" []
                 [if truthy isPost then JElem "HireMe" [] [] else JVal isPost;
                  JElem "SubscribeForm" [] [];
                  JElem "br" [] [];
                  JElem "br" [] []]) ∧
  (has_tag "SubscribeForm" footer = true ↔ truthy noSubscribeForm = false) ∧
  (has_tag "HireMe" footer = true ↔
   truthy isPost = true ∧ truthy noSubscribeForm = false) ∧
  (truthy noSubscribeForm = true → has_tag "HireMe" footer = false).
Proof.
  cbv zeta.
  destruct (Footer_has_tags lib year author noSubscribeForm isPost) as [Hs Hh].
  split; [apply Footer_subscribe_slot|].
  rewrite Hs, Hh.
  destruct (truthy noSubscribeForm), (truthy isPost); cbn; intuition congruence.
Qed.

Lemma footer_subscribe_and_hire_me_witness :
  has_tag "HireMe"
    (Components.Footer example_lib 2019 (VStr (u "Joe Fiorini"))
       (VBool true) (VBool true)) = false ∧
  has_tag "HireMe"
    (Components.Footer example_lib 2019 (VStr (u "Joe Fiorini"))
       VUndefined (VBool true)) = true.
Proof.
  split.
  - apply (footer_subscribe_and_hire_me example_lib 2019 (VStr (u "Joe Fiorini"))
             (VBool true) (VBool true)).
    reflexivity.
  - apply (footer_subscribe_and_hire_me example_lib 2019 (VStr (u "Joe Fiorini"))
             VUndefined (VBool true)).
    split; reflexivity.
Defined.

(** ** The page generator *)

Section GeneratorFacts.

Import Generator.

Lemma date_key_inj (d1 d2 : CalendarDate) : date_key d1 = date_key d2 → d1 = d2.
Proof. destruct d1, d2. intros [= -> -> ->]. reflexivity. Qed.

Lemma date_lt_irrefl (d : CalendarDate) : ¬ date_lt d d.
Proof. unfold date_lt. apply irreflexivity, _. Qed.

Lemma date_lt_trans (d1 d2 d3 : CalendarDate) :
  date_lt d1 d2 → date_lt d2 d3 → date_lt d1 d3.
Proof. unfold date_lt. apply transitivity. Qed.

Lemma date_lt_asym (d1 d2 : CalendarDate) : date_lt d1 d2 → ¬ date_lt d2 d1.
Proof. intros H1 H2. exact (date_lt_irrefl _ (date_lt_trans _ _ _ H1 H2)). Qed.

Lemma date_lt_trichotomy (d1 d2 : CalendarDate) :
  date_lt d1 d2 ∨ d1 = d2 ∨ date_lt d2 d1.
Proof.
  unfold date_lt.
  destruct (trichotomy lexico (date_key d1) (date_key d2)) as [H|[H|H]]; auto.
  right; left. apply date_key_inj, H.
Qed.

Lemma before_irrefl (a : ContentRecord) : ¬ before a a.
Proof. unfold before. apply irreflexivity, _. Qed.

Lemma before_trans (a b c : ContentRecord) : before a b → before b c → before a c.
Proof. unfold before. apply transitivity. Qed.

#[local] Instance not_after_total : Total not_after.
Proof.
  intros a b. unfold not_after.
  destruct (decide (before b a)) as [H|H]; [|auto].
  right. intros H'. exact (before_irrefl _ (before_trans _ _ _ H H')).
Qed.

#[local] Instance not_after_transitive : Transitive not_after.
Proof.
  intros a b c Hab Hbc Hca. unfold not_after, before in *.
  destruct (trichotomy lexico (sort_key a) (sort_key b)) as [H|[H|H]].
  - apply Hbc. exact (transitivity Hca H).
  - apply Hbc. rewrite <- H. exact Hca.
  - exact (Hab H).
Qed.

Lemma not_after_by_date (a b : ContentRecord) :
  not_after a b → date a ≠ date b → by_date a b.
Proof.
  intros H Hne. destruct (date_lt_trichotomy (date a) (date b)) as [?|[?|Hlt]];
    [assumption | contradiction |].
  exfalso. apply H. left. exact Hlt.
Qed.

Lemma by_date_not_after (a b : ContentRecord) : by_date a b → not_after a b.
Proof.
  intros H [Hlt | [Heq _]].
  - exact (date_lt_asym _ _ H Hlt).
  - apply date_key_inj in Heq. unfold by_date in H. rewrite Heq in H.
    exact (date_lt_irrefl _ H).
Qed.

Lemma StronglySorted_by_date (l : list ContentRecord) :
  StronglySorted not_after l → NoDup (date <$> l) → StronglySorted by_date l.
Proof.
  induction 1 as [|a l Hl IH Ha]; intros Hnd; [constructor|].
  rewrite fmap_cons in Hnd. apply NoDup_cons in Hnd as [Hnin Hnd].
  constructor; [auto|].
  rewrite Forall_forall in Ha |- *. intros b Hb.
  apply not_after_by_date; [auto|].
  intros E. apply Hnin. rewrite E. apply list_elem_of_fmap_2, Hb.
Qed.

Lemma link_record (p : option ContentRecord) (l : list ContentRecord) :
  record <$> link p l = l.
Proof.
  revert p. induction l as [|r l IH]; intros p; [reflexivity|].
  simpl. rewrite IH. reflexivity.
Qed.

(** The page of a record of the list: its neighbours are the records next
    to it in the list. *)
Lemma link_elem (p : option ContentRecord) (l : list ContentRecord) (pg : Page) :
  pg ∈ link p l →
  ∃ l1 l2, l = l1 ++ record pg :: l2 ∧
           previous pg = from_option Some p (last l1) ∧
           next pg = head l2.
Proof.
  revert p. induction l as [|r l IH]; intros p; simpl.
  - intros H. inversion H.
  - intros [->|H]%elem_of_cons.
    + exists [], l. auto.
    + destruct (IH _ H) as (l1 & l2 & -> & Hp & Hn).
      exists (r :: l1), l2. repeat split; [|exact Hn].
      rewrite Hp. destruct l1 as [|x l1]; [reflexivity|].
      rewrite last_cons_cons. destruct (last (x :: l1)) eqn:E; [reflexivity|].
      apply last_None in E. discriminate.
Qed.

Lemma find_duplicate_NoDup (l : list ContentRecord) :
  NoDup (slug <$> l) → find_duplicate l = None.
Proof.
  induction l as [|r l IH]; [reflexivity|].
  rewrite fmap_cons, NoDup_cons. intros [Hnin Hnd]. simpl.
  destruct (List.find _ l) as [r'|] eqn:E; [|auto].
  apply find_some in E as [Hin Heq].
  apply bool_decide_eq_true in Heq. exfalso. apply Hnin.
  rewrite Heq. apply list_elem_of_fmap_2, list_elem_of_In, Hin.
Qed.

Lemma chronological_Permutation (rs : list ContentRecord) :
  chronological rs ≡ₚ List.filter published rs.
Proof. apply merge_sort_Permutation. Qed.

Lemma chronological_sorted (rs : list ContentRecord) :
  NoDup (date <$> List.filter published rs) →
  StronglySorted by_date (chronological rs).
Proof.
  intros Hnd. apply StronglySorted_by_date.
  - apply StronglySorted_merge_sort; apply _.
  - rewrite chronological_Permutation. exact Hnd.
Qed.

Lemma NoDup_fmap_eq {A B : Type} (f : A → B) (l : list A) (x y : A) :
  NoDup (f <$> l) → x ∈ l → y ∈ l → f x = f y → x = y.
Proof.
  induction l as [|a l IH]; [intros _ H; inversion H|].
  rewrite fmap_cons, NoDup_cons. intros [Hnin Hnd].
  intros [->|Hx]%elem_of_cons [->|Hy]%elem_of_cons E; auto.
  - exfalso. apply Hnin. rewrite E. apply list_elem_of_fmap_2, Hy.
  - exfalso. apply Hnin. rewrite <- E. apply list_elem_of_fmap_2, Hx.
Qed.

(** The chronological order is the only arrangement of the published
    records by ascending date. *)
Lemma chronological_unique (rs l : list ContentRecord) :
  NoDup (date <$> List.filter published rs) →
  StronglySorted by_date l →
  l ≡ₚ List.filter published rs →
  chronological rs = l.
Proof.
  intros Hnd Hs Hp.
  apply (StronglySorted_unique_strong by_date).
  - intros x1 x2 _ _ H1 H2. destruct (date_lt_asym _ _ H1 H2).
  - apply chronological_sorted, Hnd.
  - exact Hs.
  - rewrite chronological_Permutation, Hp. reflexivity.
Qed.

Section Neighbours.

Variables (rs l1 l2 : list ContentRecord) (a : ContentRecord).
Hypothesis Hsorted : StronglySorted by_date (l1 ++ a :: l2).
Hypothesis Hperm : l1 ++ a :: l2 ≡ₚ List.filter published rs.

Lemma published_cases (c : ContentRecord) :
  c ∈ List.filter published rs ↔ c ∈ l1 ∨ c = a ∨ c ∈ l2.
Proof. rewrite <- Hperm, elem_of_app, elem_of_cons. reflexivity. Qed.

Lemma before_a (c : ContentRecord) : c ∈ l1 → by_date c a.
Proof.
  intros Hc. apply (StronglySorted_app_1_elem_of _ _ _ _ _ Hsorted Hc). left.
Qed.

Lemma after_a (c : ContentRecord) : c ∈ l2 → by_date a c.
Proof.
  intros Hc. apply StronglySorted_app_1_r, StronglySorted_cons in Hsorted.
  destruct Hsorted as [Hall _]. rewrite Forall_forall in Hall. auto.
Qed.

End Neighbours.

Lemma next_is_successor (rs l1 l2 : list ContentRecord) (a r : ContentRecord) :
  StronglySorted by_date (l1 ++ a :: l2) →
  l1 ++ a :: l2 ≡ₚ List.filter published rs →
  head l2 = Some r ↔ successor rs a r.
Proof.
  intros Hsorted Hperm.
  pose proof (published_cases rs l1 l2 a Hperm) as Hcases.
  pose proof (before_a l1 l2 a Hsorted) as Hbefore.
  pose proof (after_a l1 l2 a Hsorted) as Hafter.
  pose proof (StronglySorted_app_1_r _ _ _ Hsorted) as Hs2.
  apply StronglySorted_cons in Hs2 as [_ Hs2].
  unfold successor. split.
  - destruct l2 as [|h l2'] eqn:El2; [discriminate|]. intros [= ->].
    apply StronglySorted_cons in Hs2 as [Hall _]. rewrite Forall_forall in Hall.
    split; [apply Hcases; right; right; left|].
    split; [apply Hafter; left|].
    intros c [Hc|[->|[->|Hc]%elem_of_cons]]%Hcases Hac Hcr.
    + exact (date_lt_asym _ _ Hac (Hbefore c Hc)).
    + exact (date_lt_irrefl _ Hac).
    + exact (date_lt_irrefl _ Hcr).
    + exact (date_lt_asym _ _ Hcr (Hall c Hc)).
  - intros ([Hr|[->|Hr]]%Hcases & Har & Hmin).
    + destruct (date_lt_asym _ _ Har (Hbefore r Hr)).
    + destruct (date_lt_irrefl _ Har).
    + destruct l2 as [|h l2'] eqn:El2; [inversion Hr|].
      apply elem_of_cons in Hr as [->|Hr]; [reflexivity|].
      apply StronglySorted_cons in Hs2 as [Hall _]. rewrite Forall_forall in Hall.
      exfalso. apply (Hmin h).
      * apply Hcases. right; right; left.
      * apply Hafter. left.
      * exact (Hall r Hr).
Qed.

Lemma previous_is_predecessor (rs l1 l2 : list ContentRecord) (a r : ContentRecord) :
  StronglySorted by_date (l1 ++ a :: l2) →
  l1 ++ a :: l2 ≡ₚ List.filter published rs →
  last l1 = Some r ↔ predecessor rs a r.
Proof.
  intros Hsorted Hperm.
  pose proof (published_cases rs l1 l2 a Hperm) as Hcases.
  pose proof (before_a l1 l2 a Hsorted) as Hbefore.
  pose proof (after_a l1 l2 a Hsorted) as Hafter.
  pose proof (StronglySorted_app_1_l _ _ _ Hsorted) as Hs1.
  unfold predecessor. split.
  - destruct (snoc_case l1) as [El1|(l1' & b & El1)]; rewrite El1 in *;
      [discriminate|].
    rewrite last_snoc. intros [= ->].
    apply StronglySorted_app in Hs1 as (Hlt & _ & _).
    split; [apply Hcases; left; apply elem_of_app; right; left|].
    split; [apply Hbefore, elem_of_app; right; left|].
    intros c [[Hc|Hc%list_elem_of_singleton]%elem_of_app|[->|Hc]]%Hcases
      Hca Hrc.
    + apply (date_lt_asym _ _ Hrc). apply Hlt; [exact Hc | left].
    + subst c. exact (date_lt_irrefl _ Hrc).
    + exact (date_lt_irrefl _ Hca).
    + exact (date_lt_asym _ _ Hca (Hafter c Hc)).
  - intros ([Hr|[->|Hr]]%Hcases & Hra & Hmax).
    + destruct (snoc_case l1) as [El1|(l1' & b & El1)]; rewrite El1 in *;
        [inversion Hr|].
      rewrite last_snoc.
      apply elem_of_app in Hr as [Hr|Hr%list_elem_of_singleton]; [|congruence].
      apply StronglySorted_app in Hs1 as (Hlt & _ & _).
      exfalso. apply (Hmax b).
      * apply Hcases. left. apply elem_of_app. right; left.
      * apply Hbefore, elem_of_app. right; left.
      * apply Hlt; [exact Hr | left].
    + destruct (date_lt_irrefl _ Hra).
    + destruct (date_lt_asym _ _ Hra (Hafter r Hr)).
Qed.

Lemma no_previous_is_earliest (rs l1 l2 : list ContentRecord) (a : ContentRecord) :
  StronglySorted by_date (l1 ++ a :: l2) →
  l1 ++ a :: l2 ≡ₚ List.filter published rs →
  last l1 = None ↔ earliest rs a.
Proof.
  intros Hsorted Hperm.
  pose proof (published_cases rs l1 l2 a Hperm) as Hcases.
  pose proof (before_a l1 l2 a Hsorted) as Hbefore.
  pose proof (after_a l1 l2 a Hsorted) as Hafter.
  rewrite last_None. unfold earliest. split.
  - intros El1 c [Hc|[->|Hc]]%Hcases Hca.
    + rewrite El1 in Hc. inversion Hc.
    + exact (date_lt_irrefl _ Hca).
    + exact (date_lt_asym _ _ Hca (Hafter c Hc)).
  - intros He. destruct l1 as [|x l1'] eqn:El1; [reflexivity|].
    exfalso. apply (He x).
    + apply Hcases. left. left.
    + apply Hbefore. left.
Qed.

Lemma no_next_is_latest (rs l1 l2 : list ContentRecord) (a : ContentRecord) :
  StronglySorted by_date (l1 ++ a :: l2) →
  l1 ++ a :: l2 ≡ₚ List.filter published rs →
  head l2 = None ↔ latest rs a.
Proof.
  intros Hsorted Hperm.
  pose proof (published_cases rs l1 l2 a Hperm) as Hcases.
  pose proof (before_a l1 l2 a Hsorted) as Hbefore.
  pose proof (after_a l1 l2 a Hsorted) as Hafter.
  rewrite head_None. unfold latest. split.
  - intros El2 c [Hc|[->|Hc]]%Hcases Hac.
    + exact (date_lt_asym _ _ Hac (Hbefore c Hc)).
    + exact (date_lt_irrefl _ Hac).
    + rewrite El2 in Hc. inversion Hc.
  - intros He. destruct l2 as [|x l2'] eqn:El2; [reflexivity|].
    exfalso. apply (He x).
    + apply Hcases. right; right; left.
    + apply Hafter. left.
Qed.

End GeneratorFacts.

Lemma generate_ok (rs : list Generator.ContentRecord) :
  NoDup (Generator.slug <$> List.filter Generator.published rs) →
  Generator.generate rs =
    inr (reverse (Generator.link None (Generator.chronological rs))).
Proof.
  intros H. unfold Generator.generate.
  rewrite (find_duplicate_NoDup _ H). reflexivity.
Qed.

Lemma NoDup_pair {A : Type} (x y : A) : x ≠ y → NoDup [x; y].
Proof.
  intros H. apply NoDup_cons. split; [|apply NoDup_singleton].
  intros Hin%list_elem_of_singleton. contradiction.
Qed.

Lemma generate_two (a b : Generator.ContentRecord) (rs : list Generator.ContentRecord) :
  by_date a b →
  Generator.slug a ≠ Generator.slug b →
  List.filter Generator.published rs ≡ₚ [a; b] →
  Generator.generate rs =
    inr [ {| Generator.record := b;
             Generator.previous := Some a;
             Generator.next := None |};
          {| Generator.record := a;
             Generator.previous := None;
             Generator.next := Some b |} ].
Proof.
  intros Hab Hslug Hp.
  assert (Hd : Generator.date a ≠ Generator.date b).
  { intros E. unfold by_date in Hab. rewrite E in Hab.
    exact (date_lt_irrefl _ Hab). }
  rewrite generate_ok by (rewrite Hp; apply NoDup_pair, Hslug).
  rewrite (chronological_unique rs [a; b]).
  - reflexivity.
  - rewrite Hp. apply NoDup_pair, Hd.
  - repeat first [ exact Hab | apply SSorted_cons | apply SSorted_nil
                   | apply Forall_cons_2 | apply Forall_nil_2 ].
  - symmetry. exact Hp.
Qed.

(** C8: for published records with distinct publication dates (and, as the
    data model requires, distinct slugs) the run succeeds with one page per
    published record, most recent first; on every page the next link is
    the published record with the smallest date strictly greater, the
    previous link the one with the greatest date strictly smaller, the
    previous link is absent exactly on the earliest record and the next
    link exactly on the latest. Two published records A, dated 2017-01-01,
    and B, dated 2017-02-01, give exactly two pages: A's next is B, B's
    previous is A, A's previous and B's next are absent. *)
Theorem generator_neighbour_links :
  (∀ rs : list Generator.ContentRecord,
     NoDup (Generator.slug <$> List.filter Generator.published rs) →
     NoDup (Generator.date <$> List.filter Generator.published rs) →
     ∃ pages,
       Generator.generate rs = inr pages ∧
       Generator.record <$> pages ≡ₚ List.filter Generator.published rs ∧
       StronglySorted by_date (reverse (Generator.record <$> pages)) ∧
       ∀ pg, pg ∈ pages →
         (∀ r, Generator.next pg = Some r ↔
               Generator.successor rs (Generator.record pg) r) ∧
         (∀ r, Generator.previous pg = Some r ↔
               Generator.predecessor rs (Generator.record pg) r) ∧
         (Generator.previous pg = None ↔
          Generator.earliest rs (Generator.record pg)) ∧
         (Generator.next pg = None ↔
          Generator.latest rs (Generator.record pg))) ∧
  (∀ A B : Generator.ContentRecord,
     Generator.date A = date_2017_01_01 →
     Generator.date B = date_2017_02_01 →
     Generator.published A = true →
     Generator.published B = true →
     Generator.slug A ≠ Generator.slug B →
     let pages :=
       [ {| Generator.record := B;
            Generator.previous := Some A;
            Generator.next := None |};
         {| Generator.record := A;
            Generator.previous := None;
            Generator.next := Some B |} ] in
     Generator.generate [A; B] = inr pages ∧
     Generator.generate [B; A] = inr pages).
Proof.
  split.
  - intros rs Hslug Hdate.
    pose proof (chronological_sorted rs Hdate) as Hs.
    pose proof (chronological_Permutation rs) as Hp.
    eexists. split; [apply generate_ok, Hslug|].
    rewrite fmap_reverse, link_record.
    split; [rewrite reverse_Permutation; exact Hp|].
    split; [rewrite reverse_involutive; exact Hs|].
    intros pg Hpg. apply elem_of_reverse, link_elem in Hpg
      as (l1 & l2 & El & Hprev & Hnext).
    rewrite El in Hs, Hp. rewrite Hnext.
    assert (Hprev' : Generator.previous pg = last l1)
      by (rewrite Hprev; destruct (last l1); reflexivity).
    rewrite Hprev'.
    split; [intros r; apply (next_is_successor rs l1 l2); assumption|].
    split; [intros r; apply (previous_is_predecessor rs l1 l2); assumption|].
    split; [apply (no_previous_is_earliest rs l1 l2); assumption|].
    apply (no_next_is_latest rs l1 l2); assumption.
  - intros A B HA HB HpA HpB Hslug pages.
    assert (Hab : by_date A B).
    { unfold by_date, Generator.date_lt. rewrite HA, HB.
      left. right. split; reflexivity. }
    split; apply generate_two; try assumption; simpl; rewrite HpA, HpB.
    + reflexivity.
    + apply Permutation_swap.
Qed.

Lemma generator_neighbour_links_witness :
  (∃ pages,
     Generator.generate [record_B; record_draft; record_A] = inr pages ∧
     Generator.record <$> pages ≡ₚ [record_B; record_A]) ∧
  Generator.generate [record_A; record_B] =
    inr [ {| Generator.record := record_B;
             Generator.previous := Some record_A;
             Generator.next := None |};
          {| Generator.record := record_A;
             Generator.previous := None;
             Generator.next := Some record_B |} ].
Proof.
  split.
  - destruct (proj1 generator_neighbour_links [record_B; record_draft; record_A])
      as (pages & Hg & Hp & _).
    + apply NoDup_pair. discriminate.
    + apply NoDup_pair. discriminate.
    + exists pages. split; [exact Hg | exact Hp].
  - apply (proj2 generator_neighbour_links record_A record_B);
      try reflexivity. discriminate.
Defined.

(** * Further properties of the export rewrite *)

Section ExportFixMore.

Local Open Scope nat_scope.

Lemma fix_export_sublist_aux (n : nat) (s : js_string) :
  length s ≤ n →
  fix_export s `sublist_of` s ∧
  without_underscores (fix_export s) = without_underscores s.
Proof.
  revert s. induction n as [|n IH]; intros s Hn.
  - destruct s; [|simpl in Hn; lia]. split; [constructor | reflexivity].
  - destruct s as [|c s0]; [split; [constructor | reflexivity]|].
    rewrite fix_export_cons.
    destruct (match_here (c :: s0)) as [[[g1 w] r]|] eqn:E.
    + pose proof (match_here_length _ _ _ _ E) as Hlen.
      apply match_here_spec in E as (k & -> & E & Hw). rewrite E.
      destruct (IH r) as [Hsub Hflt]; [simpl in *; lia|].
      split.
      * apply sublist_app; [reflexivity|].
        unfold export_. change (u "_export") with (95%N :: u "export").
        cbn [app]. apply sublist_cons.
        apply sublist_app; [reflexivity|].
        apply sublist_skip, Hsub.
      * unfold without_underscores in *.
        rewrite !List.filter_app. f_equal. f_equal.
        cbn [List.filter]. rewrite Hflt. reflexivity.
    + destruct (IH s0) as [Hsub Hflt]; [simpl in *; lia|].
      split; [apply sublist_skip, Hsub|].
      unfold without_underscores in *. cbn [List.filter].
      rewrite Hflt. reflexivity.
Qed.

Lemma fix_export_length (s : js_string) : length (fix_export s) ≤ length s.
Proof.
  apply sublist_length. apply (fix_export_sublist_aux (length s)). lia.
Qed.

(** A string that the rewrite leaves as it is holds no legacy pattern. *)
Lemma fix_export_fixed_point (s : js_string) :
  fix_export s = s → legacy_occurs s = false.
Proof.
  unfold legacy_occurs. induction s as [|c s IH]; [reflexivity|].
  rewrite fix_export_cons.
  destruct (match_here (c :: s)) as [[[g1 w] r]|] eqn:E.
  - apply match_here_spec in E as (k & -> & E & Hw). rewrite E.
    intros H. apply (f_equal (@length N)) in H.
    pose proof (fix_export_length r) as Hr.
    rewrite !length_app in H. cbn [length] in H. rewrite ?length_app in H.
    change (length (u "export")) with 6 in H.
    change (length export_) with 7 in H. cbn [length] in H. lia.
  - intros [= H]. cbn [occurs_ws]. rewrite (IH H), orb_false_r.
    destruct (strip_prefix (LF :: u "_export") (c :: s)) as [[|w b]|] eqn:Es;
      try reflexivity.
    destruct (is_white_space w) eqn:Hw; [|reflexivity].
    apply strip_prefix_spec in Es.
    assert (E' : match_here (c :: s) = Some ([LF], w, b)).
    { apply match_here_spec. exists 0. rewrite Es. auto. }
    congruence.
Qed.

(** The output of the rewrite never starts with a match. *)
Lemma match_here_fix_export (r : js_string) : match_here (fix_export r) = None.
Proof.
  destruct (span_lf r) as [n a1] eqn:E.
  apply span_lf_spec in E as [-> Hh].
  destruct n as [|n].
  - simpl. rewrite match_here_eq.
    change (fix_export a1) with (repeat LF 0 ++ fix_export a1).
    rewrite span_lf_run by (rewrite fix_export_head; exact Hh). reflexivity.
  - destruct (match_tail a1) as [[w r']|] eqn:Et.
    + apply match_tail_spec in Et as [-> Hw].
      rewrite fix_export_match by exact Hw.
      rewrite match_here_eq, span_lf_run by discriminate. reflexivity.
    + rewrite fix_export_run by assumption.
      rewrite match_here_eq.
      rewrite span_lf_run by (rewrite fix_export_head; exact Hh).
      destruct (match_tail (fix_export a1)) as [[w r']|] eqn:Ef; [|reflexivity].
      exfalso. apply (match_tail_fix_export a1); congruence.
Qed.

Lemma overlap_here_not_lf_export (c : N) (s : js_string) :
  head s ≠ Some 95%N → overlap_here (c :: s) = false.
Proof.
  intros H. unfold overlap_here.
  destruct (strip_prefix _ (c :: s)) as [[|w b]|] eqn:E; try reflexivity.
  apply strip_prefix_spec in E. cbn [app] in E. injection E as -> ->.
  exfalso. apply H. reflexivity.
Qed.

Lemma overlap_here_fix_export (c : N) (t : js_string) :
  overlap_here (c :: fix_export t) = false.
Proof.
  unfold overlap_here.
  destruct (strip_prefix _ (c :: fix_export t)) as [[|w b]|] eqn:E;
    try reflexivity.
  destruct (is_white_space w) eqn:Hw; [|reflexivity]. exfalso.
  apply strip_prefix_spec in E. cbn [app] in E. injection E as -> E.
  assert (E1 : strip_prefix export_ (fix_export t)
               = Some (LF :: u "_export" ++ w :: b))
    by (apply strip_prefix_spec; exact E).
  apply strip_prefix_fix_export in E1 as (t1 & _ & E1); [|apply export_no_lf].
  pose proof (match_here_fix_export t1) as Hm. rewrite E1 in Hm.
  assert (Hs : match_here (LF :: u "_export" ++ w :: b) = Some ([LF], w, b)).
  { apply match_here_spec. exists 0. auto. }
  congruence.
Qed.

Lemma overlap_occurs_run (k : nat) (t : js_string) :
  head t ≠ Some 95%N →
  overlap_occurs (repeat LF k ++ t) = overlap_occurs t.
Proof.
  intros Ht. unfold overlap_occurs. induction k as [|k IH]; [reflexivity|].
  change (repeat LF (S k) ++ t) with (LF :: (repeat LF k ++ t)).
  cbn [occurs_ws]. rewrite IH.
  fold (overlap_here (LF :: repeat LF k ++ t)).
  rewrite overlap_here_not_lf_export; [reflexivity|].
  destruct k; [exact Ht | discriminate].
Qed.

(** After one pass no two legacy patterns share a line feed. *)
Lemma overlap_occurs_fix_export_aux (n : nat) (s : js_string) :
  length s ≤ n → overlap_occurs (fix_export s) = false.
Proof.
  revert s. induction n as [|n IH]; intros s Hn.
  - destruct s; [reflexivity | simpl in Hn; lia].
  - destruct s as [|c s0]; [reflexivity|].
    rewrite fix_export_cons.
    destruct (match_here (c :: s0)) as [[[g1 w] r]|] eqn:E.
    + pose proof (match_here_length _ _ _ _ E) as Hlen.
      apply match_here_spec in E as (k & -> & E & Hw).
      rewrite overlap_occurs_run by discriminate.
      change (u "export") with [101; 120; 112; 111; 114; 116]%N.
      unfold overlap_occurs. cbn [app occurs_ws].
      fold (overlap_here (w :: fix_export r)).
      rewrite overlap_here_fix_export.
      fold (overlap_occurs (fix_export r)).
      rewrite IH by (simpl in *; lia). reflexivity.
    + unfold overlap_occurs. cbn [occurs_ws].
      fold (overlap_here (c :: fix_export s0)).
      rewrite overlap_here_fix_export.
      fold (overlap_occurs (fix_export s0)).
      rewrite IH by (simpl in *; lia). reflexivity.
Qed.

Lemma fix_export_copies_line (p t : js_string) :
  Forall (λ c, c ≠ LF) p → fix_export (p ++ t) = p ++ fix_export t.
Proof.
  induction 1 as [|c p Hc Hp IH]; [reflexivity|].
  cbn [app]. rewrite fix_export_not_lf, IH by exact Hc. reflexivity.
Qed.

End ExportFixMore.

(** X1: the strings that the rewrite leaves unchanged are exactly those
    that nowhere hold a line feed, [_export] and a white space in a row. *)
Theorem fix_export_fixed_points (s : js_string) :
  fix_export s = s ↔ legacy_occurs s = false.
Proof.
  split; [apply fix_export_fixed_point | apply fix_export_unchanged].
Qed.

(** X2: two passes always suffice: after the second application no legacy
    pattern is left, and a third application changes nothing. *)
Theorem fix_export_two_passes (s : js_string) :
  legacy_occurs (fix_export (fix_export s)) = false ∧
  fix_export (fix_export (fix_export s)) = fix_export (fix_export s).
Proof.
  assert (H : fix_export (fix_export (fix_export s)) = fix_export (fix_export s)).
  { apply (fix_export_idem_aux (length (fix_export s))); [lia|].
    apply (overlap_occurs_fix_export_aux (length s)). lia. }
  split; [apply fix_export_fixed_point, H | exact H].
Qed.

(** X3: one pass is complete unless two legacy patterns share a line feed:
    on a string without such an overlap the output holds no legacy pattern
    any more. *)
Theorem fix_export_one_pass_complete (s : js_string) :
  overlap_occurs s = false → legacy_occurs (fix_export s) = false.
Proof.
  intros H. apply fix_export_fixed_point.
  apply (fix_export_idem_aux (length s)); [lia | exact H].
Qed.

Lemma fix_export_one_pass_complete_witness :
  overlap_occurs legacy_source = false ∧
  legacy_occurs legacy_source = true ∧
  legacy_occurs (fix_export legacy_source) = false.
Proof.
  split; [reflexivity|]. split; [reflexivity|].
  apply fix_export_one_pass_complete. reflexivity.
Defined.

(** X4: the rewrite only deletes underscores: its output is a subsequence
    of its input, never longer, with the same code units other than
    underscores in the same order. *)
Theorem fix_export_deletes_underscores_only (s : js_string) :
  fix_export s `sublist_of` s ∧
  without_underscores (fix_export s) = without_underscores s ∧
  (length (fix_export s) ≤ length s)%nat.
Proof.
  destruct (fix_export_sublist_aux (length s) s) as [H1 H2]; [lia|].
  split; [exact H1|]. split; [exact H2 | apply fix_export_length].
Qed.

(** X5: two line feeds in a row cut the rewrite in two: what precedes them
    is rewritten as if the input ended after the first line feed, what
    follows from the second line feed on is rewritten on its own. *)
Theorem fix_export_blank_line_split (a t : js_string) :
  fix_export (a ++ LF :: LF :: t) =
    fix_export (a ++ [LF]) ++ fix_export (LF :: t).
Proof. apply fix_export_split. Qed.

(** X6: the text before the first line feed is copied as it is, also when
    it starts with [_export]: the pattern needs a line feed in front. *)
Theorem fix_export_first_line (p t : js_string) :
  Forall (λ c, c ≠ LF) p → fix_export (p ++ t) = p ++ fix_export t.
Proof. apply fix_export_copies_line. Qed.

Lemma fix_export_first_line_witness :
  fix_export first_line_source =
    u "_export default f" ++ [LF; LF] ++ u "export x".
Proof.
  unfold first_line_source.
  rewrite (fix_export_first_line (u "_export default f"))
    by (repeat constructor; discriminate).
  reflexivity.
Defined.

(** * Further properties of the post template *)

Section PostMore.

Variables (lib : Lib) (config : Config) (site : Site) (mdx : Mdx)
  (pageContext : PageContext).


Lemma Post_banner_block (file : File) (sharp : ImageSharp) (kw : list js_string) :
  banner (frontmatter mdx) = Some file →
  childImageSharp file = Some sharp →
  site_keywords (siteMetadata site) = Some kw →
  ∃ page container,
    Template.Post lib config site mdx pageContext = Ok page ∧
    find_tag "Img" page =
      Some (JElem "Img"
              [("sizes", AFluid (fluid sharp));
               ("alt", AVal (VStr (join (u ", ") kw)))] []) ∧
    find_tag "Container" (mounted page) = Some container ∧
    map tag_of (children_of container) =
      ["h1"; "div"; "div"; "br"]
      ++ (if truthy (of_nullable (video_url (frontmatter mdx)))
          then ["Aside"] else [])
      ++ ["MDXRenderer"].
Proof.
  intros E1 E2 E3. unfold Template.Post. rewrite E1, E2, E3.
  cbn [bind member].
  destruct (video_url (frontmatter mdx)) as [[|? ?]|],
           (video_teaser (frontmatter mdx)) as [[|? ?]|],
           (date (frontmatter mdx)) as [[|? ?]|],
           (title (frontmatter mdx)) as [?|];
    (eexists _, _; split; [reflexivity|];
     split; [reflexivity|]; split; reflexivity).
Qed.

Lemma Post_date_block (page : jsx) :
  Template.Post lib config site mdx pageContext = Ok page →
  ∃ css,
    find_tag "div" (mounted page) =
      Some (JElem "div" css
              match date (frontmatter mdx) with
              | None => []
              | Some [] => [JVal (VStr [])]
              | Some d => [JElem "h3" [] [JVal (VStr d)]]
              end).
Proof.
  intros H. unfold Template.Post in H.
  destruct (banner (frontmatter mdx)) as [file|];
    [destruct (childImageSharp file);
       [destruct (site_keywords (siteMetadata site))|]|];
    cbn [bind member] in H; try discriminate H; injection H as <-;
    destruct (date (frontmatter mdx)) as [[|? ?]|],
             (title (frontmatter mdx)) as [?|];
    eexists; reflexivity.
Qed.

End PostMore.



(** X8: for a record with a banner whose image data is present the page
    holds the banner block between the date block and the line break; its
    image receives the fluid data as it is (also when that is null) and,
    as alternative text, the site keywords joined by a comma and a space. *)
Theorem post_with_banner
    (lib : Lib) (config : Config) (site : Site) (mdx : Mdx) (ctx : PageContext)
    (file : File) (sharp : ImageSharp) (kw : list js_string) :
  banner (frontmatter mdx) = Some file →
  childImageSharp file = Some sharp →
  site_keywords (siteMetadata site) = Some kw →
  ∃ page container,
    Template.Post lib config site mdx ctx = Ok page ∧
    find_tag "Img" page =
      Some (JElem "Img"
              [("sizes", AFluid (fluid sharp));
               ("alt", AVal (VStr (join (u ", ") kw)))] []) ∧
    find_tag "Container" (mounted page) = Some container ∧
    map tag_of (children_of container) =
      ["h1"; "div"; "div"; "br"]
      ++ (if truthy (of_nullable (video_url (frontmatter mdx)))
          then ["Aside"] else [])
      ++ ["MDXRenderer"].
Proof. apply Post_banner_block. Qed.

Lemma post_with_banner_witness :
  ∃ page container,
    Template.Post example_lib website example_site
      (demo01 (Some example_banner) None None) example_context = Ok page ∧
    find_tag "Img" page =
      Some (JElem "Img"
              [("sizes", AFluid (Some (FluidImage (u "/static/banner.png"))));
               ("alt", AVal (VStr (u "react, typescript")))] []) ∧
    find_tag "Container" (mounted page) = Some container ∧
    map tag_of (children_of container) =
      ["h1"; "div"; "div"; "br"; "MDXRenderer"].
Proof.
  exact (post_with_banner example_lib website example_site
           (demo01 (Some example_banner) None None) example_context
           example_banner _ _ eq_refl eq_refl eq_refl).
Defined.

(** X9: the date block of a page holds the [h3] heading with the date when
    the date is a non-empty string, nothing when the date is null, and the
    empty string itself, without a heading, when the date is empty. *)
Theorem post_date_block
    (lib : Lib) (config : Config) (site : Site) (mdx : Mdx) (ctx : PageContext)
    (page : jsx) :
  Template.Post lib config site mdx ctx = Ok page →
  ∃ css,
    find_tag "div" (mounted page) =
      Some (JElem "div" css
              match date (frontmatter mdx) with
              | None => []
              | Some [] => [JVal (VStr [])]
              | Some d => [JElem "h3" [] [JVal (VStr d)]]
              end).
Proof. apply Post_date_block. Qed.

Lemma post_date_block_witness :
  (∃ page css,
     Template.Post example_lib website example_site
       (demo01 None None None) example_context = Ok page ∧
     find_tag "div" (mounted page) =
       Some (JElem "div" css
               [JElem "h3" [] [JVal (VStr (u "January 01, 2017"))]])) ∧
  (∃ page css,
     Template.Post example_lib website example_site demo01_bare
       example_context = Ok page ∧
     find_tag "div" (mounted page) = Some (JElem "div" css [])).
Proof.
  split.
  - eexists.
    destruct (post_date_block example_lib website example_site
                (demo01 None None None) example_context _ eq_refl) as [css H].
    exists css. split; [reflexivity | exact H].
  - eexists.
    destruct (post_date_block example_lib website example_site
                demo01_bare example_context _ eq_refl) as [css H].
    exists css. split; [reflexivity | exact H].
Defined.

(** X10: for a record whose slug is null the share widget still is the
    last block of the page, and its URL is the site URL followed by
    [/null/]: the template literal renders the null slug as text. *)
Theorem post_share_null_slug
    (lib : Lib) (config : Config) (site : Site) (mdx : Mdx) (ctx : PageContext)
    (page : jsx) :
  Template.Post lib config site mdx ctx = Ok page →
  slug (frontmatter mdx) = None →
  ∃ attrs blocks,
    page =
      JElem "Layout" attrs
        (blocks ++
         [JElem "Container" [("noVerticalPadding", AVal (VBool true))]
            [JElem "Share"
               [("url", AVal (VStr (siteUrl config ++ u "/null/")));
                ("title", AVal (of_nullable (title (frontmatter mdx))));
                ("twitterHandle", AVal (VStr (twitterHandle config)))] [];
             Template.br]]).
Proof.
  intros H Hs.
  destruct (Post_share lib config site mdx ctx page H) as (attrs & blocks & ->).
  rewrite Hs. exists attrs, blocks. reflexivity.
Qed.

Lemma post_share_null_slug_witness :
  ∃ page attrs blocks,
    Template.Post example_lib website example_site demo01_bare
      example_context = Ok page ∧
    page =
      JElem "Layout" attrs
        (blocks ++
         [JElem "Container" [("noVerticalPadding", AVal (VBool true))]
            [JElem "Share"
               [("url", AVal (VStr (u "https://joefiorini.com/null/")));
                ("title",
                 AVal (VStr (u "Taming Complex State with Union Types")));
                ("twitterHandle", AVal (VStr (u "@joegrammer2")))] [];
             Template.br]]).
Proof.
  eexists.
  destruct (post_share_null_slug example_lib website example_site
              demo01_bare example_context _ eq_refl eq_refl)
    as (attrs & blocks & E).
  exists attrs, blocks. split; [reflexivity | exact E].
Defined.

(** * Further properties of the footer *)

(** X11: a falsy prop that is not null, undefined or false is itself
    mounted in place of what it guards: with the subscribe section shown,
    a falsy [isPost] such as the number zero or the empty string takes the
    place of the [HireMe] block, and a falsy [author] of that kind is the
    content of the copyright block. *)
Theorem footer_falsy_props_are_mounted
    (lib : Lib) (year : Z) (author noSubscribeForm isPost : js_value) :
  let footer := Components.Footer lib year author noSubscribeForm isPost in
  (truthy noSubscribeForm = false → truthy isPost = false →
   subscribe_slot (mounted footer) =
     Some (JElem "div" []
             ((if renders_nothing (JVal isPost) then [] else [JVal isPost])
              ++ [JElem "SubscribeForm" [] [];
                  JElem "br" [] [];
                  JElem "br" [] []]))) ∧
  (truthy author = false →
   ∃ css,
     copyright_block (mounted footer) =
       Some (JElem "div" css
               (if renders_nothing (JVal author) then [] else [JVal author]))).
Proof.
  cbv zeta. split.
  - intros Hn Hp. unfold Components.Footer, and_then. cbn [truthy].
    rewrite Hn, Hp. destruct isPost as [| |[|]|[| |]|[|]]; reflexivity.
  - intros Ha. eexists.
    rewrite Footer_copyright_block, Ha. reflexivity.
Qed.

Lemma footer_falsy_props_are_mounted_witness :
  subscribe_slot
    (mounted (Components.Footer example_lib 2019 (VNum 0) VUndefined (VNum 0))) =
    Some (JElem "div" []
            [JVal (VNum 0);
             JElem "SubscribeForm" [] [];
             JElem "br" [] [];
             JElem "br" [] []]) ∧
  ∃ css,
    copyright_block
      (mounted (Components.Footer example_lib 2019 (VNum 0) VUndefined (VNum 0))) =
      Some (JElem "div" css [JVal (VNum 0)]).
Proof.
  destruct (footer_falsy_props_are_mounted example_lib 2019
              (VNum 0) VUndefined (VNum 0)) as [H1 H2].
  split; [exact (H1 eq_refl eq_refl) | exact (H2 eq_refl)].
Defined.

(** * Further properties of the component table *)

(** X12: the [pre] handler has two outcomes only: it throws exactly when
    [preToCodeBlock] extracts nothing, and every element it returns is a
    [Code] element that carries the rewritten code string; for no input
    does it return a plain [pre] element. *)
Theorem pre_outcomes
    (preToCodeBlock : Mdx.element_props → option Mdx.code_block)
    (preProps : Mdx.element_props) :
  (Mdx.pre preToCodeBlock preProps = Throw TypeError ↔
   preToCodeBlock preProps = None) ∧
  (∀ r, Mdx.pre preToCodeBlock preProps = Ok r →
        tag_of r = "Code" ∧
        ∃ b, preToCodeBlock preProps = Some b ∧
             attr_of "codeString" r =
               Some (AVal (VStr (fix_export (Mdx.codeString b))))).
Proof.
  destruct (preToCodeBlock preProps) as [b|] eqn:E.
  - rewrite (pre_some _ _ _ E). split; [split; discriminate|].
    intros r [= <-]. split; [reflexivity|]. exists b. auto.
  - rewrite (pre_none _ _ E). split; [split; reflexivity|].
    intros r H. discriminate.
Qed.

Lemma pre_outcomes_witness :
  tag_of (JElem "Code"
            [("codeString",
              AVal (VStr (u "import a" ++ [LF; LF] ++ u "export default a")));
             ("className", AVal (VStr (u "language-js")))] []) = "Code" ∧
  Mdx.pre Mdx.preToCodeBlock_simple bare_pre = Throw TypeError.
Proof.
  destruct (pre_outcomes Mdx.preToCodeBlock_simple fenced_pre) as [_ H].
  destruct (pre_outcomes Mdx.preToCodeBlock_simple bare_pre) as [H' _].
  split; [exact (proj1 (H _ eq_refl)) | exact (proj2 H' eq_refl)].
Defined.
